(** * Dataviz.ts: the data transformation pipeline

    A shallow embedding of the data helpers of [src/Dataviz.ts]
    (column classifier, sort, normalization, outlier removal, heatmap
    matrix, aggregation, filtering and the line/scatter projections),
    together with the properties the specification states about them.

    Values.  A field of a record holds a number, a text, a boolean or
    null, and an absent field reads as undefined; the operators of the
    language ([==], [===], [<], [+], [-], [typeof], the conversions to
    number and to text) are defined on these values as ECMAScript
    defines them.

    Numbers.  A number is NaN, one of the two infinities, or a finite
    value held as an exact rational.  Arithmetic on finite values is
    exact: binary64 rounding, overflow to infinity and the negative
    zero are outside the model.

    Host functions.  [Array.prototype.sort] is a stable insertion sort:
    ECMAScript fixes the result of a sort only for a consistent
    comparator, and every stable sort then agrees with this one.
    [localeCompare] is the ordinal, code-unit comparison of texts, which
    is what the specification calls lexicographic.

    Store.  The helpers are first given as functions on values, where a
    dataset is a list of records.  The four stages that take and return
    a dataset without, it is claimed, touching their input are modelled
    a second time on a store of arrays and objects, and shown to compute
    there what the functions on values compute. *)

From Stdlib Require Import QArith Qcanon Ascii String.
From stdpp Require Import gmap strings list fin_maps numbers pretty sorting.

Local Open Scope Z_scope.

(** ** JavaScript numbers *)

Inductive num : Type :=
  | NaN
  | NInf
  | Fin (q : Qc)
  | PInf.

#[global] Instance num_eq_dec : EqDecision num.
Proof. solve_decision. Defined.

Definition Qc_pos (q : Qc) : bool := bool_decide (0 < q)%Qc.
Definition Qc_neg (q : Qc) : bool := bool_decide (q < 0)%Qc.
Definition Qc_zero (q : Qc) : bool := bool_decide (q = 0%Qc).

Definition num_of_Z (z : Z) : num := Fin (Qc_of_Z z).
Definition num_of_nat (n : nat) : num := num_of_Z (Z.of_nat n).

Definition num_opp (a : num) : num :=
  match a with
  | NaN => NaN
  | NInf => PInf
  | PInf => NInf
  | Fin q => Fin (- q)%Qc
  end.

(** [a + b] on numbers. *)
Definition num_add (a b : num) : num :=
  match a, b with
  | NaN, _ | _, NaN => NaN
  | PInf, NInf | NInf, PInf => NaN
  | PInf, _ | _, PInf => PInf
  | NInf, _ | _, NInf => NInf
  | Fin x, Fin y => Fin (x + y)%Qc
  end.

(** [a - b] on numbers. *)
Definition num_sub (a b : num) : num := num_add a (num_opp b).

(** The sign of a number: [Gt], [Lt], [Eq] for zero, [None] for NaN. *)
Definition num_sign (a : num) : option comparison :=
  match a with
  | NaN => None
  | NInf => Some Lt
  | PInf => Some Gt
  | Fin q => Some (if Qc_pos q then Gt else if Qc_neg q then Lt else Eq)
  end.

Definition signed_inf (s : comparison) : num :=
  match s with Gt => PInf | Lt => NInf | Eq => NaN end.

Definition sign_mul (s t : comparison) : comparison :=
  match s, t with
  | Eq, _ | _, Eq => Eq
  | Gt, Gt | Lt, Lt => Gt
  | _, _ => Lt
  end.

(** [a * b] on numbers: an infinity times zero is NaN. *)
Definition num_mul (a b : num) : num :=
  match a, b with
  | Fin x, Fin y => Fin (x * y)%Qc
  | _, _ =>
    match num_sign a, num_sign b with
    | Some s, Some t => signed_inf (sign_mul s t)
    | _, _ => NaN
    end
  end.

(** [a / b] on numbers: a finite value over zero is an infinity of the
    dividend's sign, zero over zero and infinity over infinity are NaN. *)
Definition num_div (a b : num) : num :=
  match a, b with
  | NaN, _ | _, NaN => NaN
  | (PInf | NInf), (PInf | NInf) => NaN
  | Fin _, (PInf | NInf) => Fin 0%Qc
  | (PInf | NInf), Fin y =>
    match num_sign a with
    | Some s => signed_inf (sign_mul s (if Qc_neg y then Lt else Gt))
    | None => NaN
    end
  | Fin x, Fin y =>
    if Qc_zero y then
      (if Qc_pos x then PInf else if Qc_neg x then NInf else NaN)
    else Fin (x / y)%Qc
  end.

(** [a < b] on numbers; false as soon as an operand is NaN. *)
Definition num_lt (a b : num) : bool :=
  match a, b with
  | NaN, _ | _, NaN => false
  | _, NInf => false
  | NInf, _ => true
  | PInf, _ => false
  | Fin _, PInf => true
  | Fin x, Fin y => bool_decide (x < y)%Qc
  end.

(** [a === b] on numbers: NaN differs from itself. *)
Definition num_eq (a b : num) : bool :=
  match a, b with
  | NaN, _ | _, NaN => false
  | _, _ => bool_decide (a = b)
  end.

(** [a <= b] on numbers. *)
Definition num_le (a b : num) : bool := num_lt a b || num_eq a b.

Definition num_gt (a b : num) : bool := num_lt b a.
Definition num_ge (a b : num) : bool := num_le b a.

Definition num_isNaN (a : num) : bool :=
  match a with NaN => true | _ => false end.

Definition num_isFinite (a : num) : bool :=
  match a with Fin _ => true | _ => false end.

(** A comparator result read the way [Array.prototype.sort] reads it:
    only a result above zero asks for the two elements to be swapped;
    NaN counts as zero. *)
Definition num_positive (a : num) : bool := num_lt (Fin 0%Qc) a.
Definition num_negative (a : num) : bool := num_lt a (Fin 0%Qc).

(** The least and the greatest of a list of numbers: the identity is
    the opposite infinity, NaN is absorbing. *)
Definition num_min2 (a b : num) : num :=
  match a, b with
  | NaN, _ | _, NaN => NaN
  | _, _ => if num_lt b a then b else a
  end.

Definition num_max2 (a b : num) : num :=
  match a, b with
  | NaN, _ | _, NaN => NaN
  | _, _ => if num_lt a b then b else a
  end.

Definition min_list (l : list num) : num := foldl num_min2 PInf l.
Definition max_list (l : list num) : num := foldl num_max2 NInf l.


(** ** JavaScript values

    A record field holds a number, a string, a boolean or null; an
    absent field reads as [VUndef]. *)

Inductive jsval : Type :=
  | VUndef
  | VNull
  | VBool (b : bool)
  | VNum (n : num)
  | VStr (s : string).

#[global] Instance jsval_eq_dec : EqDecision jsval.
Proof. solve_decision. Defined.

(** [typeof v] *)
Definition typeof (v : jsval) : string :=
  match v with
  | VUndef => "undefined"
  | VNull => "object"
  | VBool _ => "boolean"
  | VNum _ => "number"
  | VStr _ => "string"
  end.

(** *** Text to number: [StringToNumber] of ECMAScript

    White space is trimmed (the ASCII white space characters; the
    non-ASCII ones of [StrWhiteSpaceChar] are not recognised), the empty
    text is zero, and the text must then be a signed decimal literal, a
    signed [Infinity], or an unsigned hexadecimal, octal or binary
    integer literal. Anything else is NaN. *)

Definition is_white (c : ascii) : bool :=
  let n := N_of_ascii c in
  bool_decide (n = 9 ∨ n = 10 ∨ n = 11 ∨ n = 12 ∨ n = 13 ∨ n = 32)%N.

Definition digit_of (base : Z) (c : ascii) : option Z :=
  let n := Z.of_N (N_of_ascii c) in
  let d :=
    if bool_decide (48 ≤ n ≤ 57) then Some (n - 48)
    else if bool_decide (97 ≤ n ≤ 102) then Some (n - 87)
    else if bool_decide (65 ≤ n ≤ 70) then Some (n - 55)
    else None in
  match d with
  | Some k => if bool_decide (k < base) then Some k else None
  | None => None
  end.

(** The longest prefix of digits of [l] in [base], and what follows. *)
Fixpoint span_digits (base : Z) (l : list ascii) : list Z * list ascii :=
  match l with
  | [] => ([], [])
  | c :: l' =>
    match digit_of base c with
    | Some d => let '(ds, r) := span_digits base l' in (d :: ds, r)
    | None => ([], l)
    end
  end.

Definition digits_value (base : Z) (ds : list Z) : Z :=
  foldl (λ acc d, acc * base + d) 0 ds.

(** [m * 10 ^ e] as an exact rational. *)
Definition scale10 (m e : Z) : Qc :=
  if bool_decide (0 ≤ e) then Qc_of_Z (m * 10 ^ e)
  else Q2Qc (Qmake m (Z.to_pos (10 ^ (- e)))).

Definition split_sign (l : list ascii) : bool * list ascii :=
  match l with
  | "-"%char :: r => (true, r)
  | "+"%char :: r => (false, r)
  | _ => (false, l)
  end.

(** [ExponentPart_opt] followed by the end of the text. *)
Definition parse_exponent (l : list ascii) : option Z :=
  match l with
  | [] => Some 0
  | c :: r =>
    if bool_decide (c = "e"%char ∨ c = "E"%char) then
      let '(neg, r') := split_sign r in
      match span_digits 10 r' with
      | (d :: ds, []) =>
        let e := digits_value 10 (d :: ds) in
        Some (if neg then - e else e)
      | _ => None
      end
    else None
  end.

(** [StrUnsignedDecimalLiteral] *)
Definition parse_unsigned_decimal (l : list ascii) : option num :=
  if bool_decide (l = list_ascii_of_string "Infinity") then Some PInf
  else
    let '(ip, r1) := span_digits 10 l in
    let '(fp, r2) :=
      match r1 with
      | "."%char :: r => span_digits 10 r
      | _ => ([], r1)
      end in
    match ip ++ fp with
    | [] => None
    | ds =>
      match parse_exponent r2 with
      | Some e => Some (Fin (scale10 (digits_value 10 ds) (e - Z.of_nat (length fp))))
      | None => None
      end
    end.

(** [NonDecimalIntegerLiteral]: [0x], [0o], [0b] and their digits. *)
Definition parse_non_decimal (l : list ascii) : option num :=
  match l with
  | "0"%char :: p :: r =>
    let base :=
      if bool_decide (p = "x"%char ∨ p = "X"%char) then Some 16
      else if bool_decide (p = "o"%char ∨ p = "O"%char) then Some 8
      else if bool_decide (p = "b"%char ∨ p = "B"%char) then Some 2
      else None in
    match base with
    | Some b =>
      match span_digits b r with
      | (d :: ds, []) => Some (num_of_Z (digits_value b (d :: ds)))
      | _ => None
      end
    | None => None
    end
  | _ => None
  end.

Definition dropwhile_white (l : list ascii) : list ascii :=
  (fix go l :=
     match l with
     | [] => []
     | c :: r => if is_white c then go r else l
     end) l.

Definition trim_white (l : list ascii) : list ascii :=
  reverse (dropwhile_white (reverse (dropwhile_white l))).

Definition StringToNumber (s : string) : num :=
  let l := trim_white (list_ascii_of_string s) in
  match l with
  | [] => Fin 0%Qc
  | _ =>
    match parse_non_decimal l with
    | Some n => n
    | None =>
      let '(neg, r) := split_sign l in
      match parse_unsigned_decimal r with
      | Some n => if neg then num_opp n else n
      | None => NaN
      end
    end
  end.

(** *** Number to text

    [Number::toString] for integers and for finite decimal fractions;
    a fraction with no finite expansion is cut after seventeen digits
    (the host prints the shortest text that reads back as the same
    binary64 value, and switches to exponent notation from [1e21] up
    and below [1e-6]: both lie outside the exact number model). *)

Fixpoint frac_digits (fuel : nat) (r d : Z) : string :=
  match fuel with
  | O => ""
  | S fuel' =>
    if bool_decide (r = 0) then ""
    else String (ascii_of_N (Z.to_N (48 + (r * 10) / d)))
                (frac_digits fuel' ((r * 10) mod d) d)
  end.

Definition NumberToString (n : num) : string :=
  match n with
  | NaN => "NaN"
  | PInf => "Infinity"
  | NInf => "-Infinity"
  | Fin q =>
    let a := Z.abs (Qnum q) in
    let d := Z.pos (Qden q) in
    (if bool_decide (Qnum q < 0) then "-" else "") +:+
    pretty (a / d) +:+
    (if bool_decide (a mod d = 0) then "" else "." +:+ frac_digits 17 (a mod d) d)
  end.

(** [Number(v)], also the unary [+v]. *)
Definition ToNumber (v : jsval) : num :=
  match v with
  | VUndef => NaN
  | VNull => Fin 0%Qc
  | VBool b => if b then Fin 1%Qc else Fin 0%Qc
  | VNum n => n
  | VStr s => StringToNumber s
  end.

(** [String(v)] *)
Definition ToString (v : jsval) : string :=
  match v with
  | VUndef => "undefined"
  | VNull => "null"
  | VBool b => if b then "true" else "false"
  | VNum n => NumberToString n
  | VStr s => s
  end.

(** [Math.min(...values)] and [Math.max(...values)]: every argument is
    converted to a number first. *)
Definition Math_min (values : list jsval) : num := min_list (map ToNumber values).
Definition Math_max (values : list jsval) : num := max_list (map ToNumber values).

(** The global [isNaN(v)], which converts its argument first. *)
Definition isNaN (v : jsval) : bool := num_isNaN (ToNumber v).

(** *** Operators *)

(** [a === b] *)
Definition strict_eq (a b : jsval) : bool :=
  match a, b with
  | VNum x, VNum y => num_eq x y
  | _, _ => bool_decide (a = b)
  end.

(** [a == b] on primitive values. *)
Definition loose_eq (a b : jsval) : bool :=
  match a, b with
  | (VUndef | VNull), (VUndef | VNull) => true
  | (VUndef | VNull), _ | _, (VUndef | VNull) => false
  | VStr s, VStr t => bool_decide (s = t)
  | _, _ => num_eq (ToNumber a) (ToNumber b)
  end.

(** [a == null], true of null and undefined only. *)
Definition is_nullish (v : jsval) : bool :=
  match v with VUndef | VNull => true | _ => false end.

(** The abstract comparison [IsLessThan]: two strings compare by code
    units, anything else as numbers, and [None] is the undefined result
    of a comparison with NaN. *)
Definition IsLessThan (a b : jsval) : option bool :=
  match a, b with
  | VStr s, VStr t => Some (String.ltb s t)
  | _, _ =>
    let x := ToNumber a in
    let y := ToNumber b in
    if num_isNaN x || num_isNaN y then None else Some (num_lt x y)
  end.

(** [a < b], [a > b], [a <= b], [a >= b] *)
Definition js_lt (a b : jsval) : bool := default false (IsLessThan a b).
Definition js_gt (a b : jsval) : bool := default false (IsLessThan b a).
Definition js_le (a b : jsval) : bool :=
  match IsLessThan b a with Some false => true | _ => false end.
Definition js_ge (a b : jsval) : bool :=
  match IsLessThan a b with Some false => true | _ => false end.

(** [a - b], [a * b], [a / b]: always numeric. *)
Definition js_sub (a b : jsval) : num := num_sub (ToNumber a) (ToNumber b).

(** [a + b]: concatenation as soon as an operand is text. *)
Definition js_add (a b : jsval) : jsval :=
  match a, b with
  | VStr _, _ | _, VStr _ => VStr (ToString a +:+ ToString b)
  | _, _ => VNum (num_add (ToNumber a) (ToNumber b))
  end.

(** [s.localeCompare(t)], as the ordinal comparison. *)
Definition localeCompare (s t : string) : num :=
  match String.compare s t with
  | Lt => num_of_Z (-1)
  | Eq => num_of_Z 0
  | Gt => num_of_Z 1
  end.

(** *** Arrays: [sort], [indexOf], [new Set] *)

(** [insert_by after x l] puts [x] before the first element of [l] it
    need not come after. *)
Fixpoint insert_by {A} (after : A → A → bool) (x : A) (l : list A) : list A :=
  match l with
  | [] => [x]
  | y :: l' => if after x y then y :: insert_by after x l' else x :: l
  end.

Definition sort_by {A} (after : A → A → bool) (l : list A) : list A :=
  foldr (insert_by after) [] l.

(** [l.sort(comparefn)] on an array with no undefined element: [a] goes
    after [b] when [comparefn(a, b)] is above zero. *)
Definition Array_sort {A} (comparefn : A → A → num) (l : list A) : list A :=
  sort_by (λ a b, num_positive (comparefn a b)) l.

(** [l.sort(comparefn)] on an array of values: undefined elements go
    last, and [comparefn] never sees them. *)
Definition is_undef (v : jsval) : bool :=
  match v with VUndef => true | _ => false end.

Definition Array_sort_values (comparefn : jsval → jsval → num)
    (l : list jsval) : list jsval :=
  Array_sort comparefn (List.filter (λ v, negb (is_undef v)) l)
  ++ List.filter is_undef l.

(** [l.indexOf(x)]: the first index holding a value strictly equal to
    [x], [None] standing for [-1]. *)
Fixpoint indexOf (l : list jsval) (x : jsval) : option nat :=
  match l with
  | [] => None
  | y :: l' => if strict_eq y x then Some O else S <$> indexOf l' x
  end.

(** [Array.from(new Set(l))]: the first occurrence of each value, in
    order. Set membership is SameValueZero, which on these values is
    plain equality (NaN is a member like any other). *)
Fixpoint Set_from (seen : list jsval) (l : list jsval) : list jsval :=
  match l with
  | [] => []
  | x :: l' =>
    if bool_decide (x ∈ seen) then Set_from seen l'
    else x :: Set_from (x :: seen) l'
  end.

(** ** Records and datasets *)

Abbreviation record := (gmap string jsval).
Abbreviation dataset := (list (gmap string jsval)).

(** [r[f]] *)
Definition get (r : record) (f : string) : jsval := default VUndef (r !! f).

(** [r[f] = v] *)
Definition set (r : record) (f : string) (v : jsval) : record := <[f := v]> r.

(** [JSON.parse(JSON.stringify(data))]: an undefined field is left out,
    a number that is not finite comes back as null. *)
Definition JSON_value (v : jsval) : option jsval :=
  match v with
  | VUndef => None
  | VNum n => Some (if num_isFinite n then VNum n else VNull)
  | _ => Some v
  end.

Definition JSON_record (r : record) : record := omap JSON_value r.

Definition JSON_clone (data : dataset) : dataset := map JSON_record data.

(** ** The data helpers of [Dataviz.ts] *)

(** [l.filter((x, index) => p(x, index))] *)
Fixpoint filter_from {A} (p : A → nat → bool) (index : nat) (l : list A) : list A :=
  match l with
  | [] => []
  | a :: l' =>
    if p a index then a :: filter_from p (S index) l'
    else filter_from p (S index) l'
  end.

Definition Array_filter {A} (p : A → nat → bool) (l : list A) : list A :=
  filter_from p 0 l.

(** *** [sortFunction] *)
Definition sortFunction (a b : jsval) : num :=
  if negb (isNaN a) && negb (isNaN b) then num_sub (ToNumber a) (ToNumber b)
  else localeCompare (ToString a) (ToString b).

(** *** [identifyNumericColumns] *)

(** The body of the callback, [declared] being [types[index]]. *)
Definition numeric_column (data : dataset) (feature : string)
    (declared : option string) : bool :=
  if bool_decide (declared = Some "number") then true
  else if bool_decide (declared = Some "enum") then
    forallb (λ datum, bool_decide (typeof (get datum feature) = "number")) data
  else false.

Definition identifyNumericColumns (data : dataset) (features types : list string)
    : list string :=
  Array_filter (λ feature index, numeric_column data feature (types !! index))
    features.

(** *** [sortData] *)
Definition sortData_compare (key order : string) (a b : record) : num :=
  match get a key, get b key with
  | VNum valA, VNum valB =>
    if bool_decide (order = "asc") then num_sub valA valB else num_sub valB valA
  | VStr valA, VStr valB =>
    if bool_decide (order = "asc") then localeCompare valA valB
    else localeCompare valB valA
  | _, _ => num_of_Z 0
  end.

Definition sortData (data : dataset) (key order : string) : dataset :=
  if bool_decide (key = "") || bool_decide (length data = 0%nat) then data
  else Array_sort (sortData_compare key order) data.

(** *** [applyNormalization] *)

(** One round of the [forEach] over the features, on the clone. *)
Definition normalize_feature (normalizedData : dataset) (feature : string) : dataset :=
  let values := map (λ d, get d feature) normalizedData in
  let min := Math_min values in
  let max := Math_max values in
  if negb (num_eq min max) then
    map (λ datum,
      set datum feature
        (VNum (num_div (js_sub (get datum feature) (VNum min)) (num_sub max min))))
      normalizedData
  else normalizedData.

Definition applyNormalization (data : dataset) (numericFeatures : list string)
    : dataset :=
  foldl normalize_feature (JSON_clone data) numericFeatures.

(** *** [removeOutliers] *)

(** The bounds computed from one column: [(lowerBound, upperBound)].
    The upper bound is built with [+] and is text when [Q3] is. *)
Definition outlier_bounds (threshold : num) (filteredData : dataset)
    (feature : string) : num * jsval :=
  let values := map (λ d, get d feature) filteredData in
  let sortedValues := Array_sort_values js_sub values in
  let Q1 := default VUndef (sortedValues !! (length sortedValues / 4)%nat) in
  let Q3 := default VUndef (sortedValues !! (length sortedValues * 3 / 4)%nat) in
  let IQR := js_sub Q3 Q1 in
  (js_sub Q1 (VNum (num_mul threshold IQR)),
   js_add Q3 (VNum (num_mul threshold IQR))).

Definition is_outlier (bounds : num * jsval) (feature : string) (d : record) : bool :=
  let value := get d feature in
  js_lt value (VNum (fst bounds)) || js_gt value (snd bounds).

(** The backward loop [for (i = length - 1; i >= 0; i--)] with its
    [splice(i, 1)]; [i] counts the indices still to visit. *)
Fixpoint splice_loop {A} (out : A → bool) (i : nat) (filteredData : list A)
    : list A :=
  match i with
  | O => filteredData
  | S i' =>
    splice_loop out i'
      (match filteredData !! i' with
       | Some d => if out d then delete i' filteredData else filteredData
       | None => filteredData
       end)
  end.

Definition removeOutliers_feature (threshold : num) (filteredData : dataset)
    (feature : string) : dataset :=
  splice_loop (is_outlier (outlier_bounds threshold filteredData feature) feature)
    (length filteredData) filteredData.

Definition removeOutliers (data : dataset) (numericFeatures : list string)
    (threshold : num) : dataset :=
  foldl (removeOutliers_feature threshold) (JSON_clone data) numericFeatures.

(** *** [buildHeatmapData] *)
Record heatmap : Type := {
  values : list (list jsval);
  rowLabels : list jsval;
  colLabels : list jsval
}.

#[global] Instance heatmap_eq_dec : EqDecision heatmap.
Proof. solve_decision. Defined.

(** [matrix[rowIndex][colIndex] += v] *)
Definition matrix_add (matrix : list (list jsval)) (rowIndex colIndex : nat)
    (v : jsval) : list (list jsval) :=
  alter (alter (λ cell, js_add cell v) colIndex) rowIndex matrix.

Definition heatmap_step (rowFeature colFeature valueFeature : string)
    (rowLabels colLabels : list jsval)
    (matrix : list (list jsval)) (datum : record) : list (list jsval) :=
  match indexOf rowLabels (get datum rowFeature),
        indexOf colLabels (get datum colFeature) with
  | Some rowIndex, Some colIndex =>
    matrix_add matrix rowIndex colIndex (get datum valueFeature)
  | _, _ => matrix
  end.

Definition buildHeatmapData (data : dataset)
    (rowFeature colFeature valueFeature : string) : heatmap :=
  let rowLabels :=
    Array_sort_values sortFunction (Set_from [] (map (λ d, get d rowFeature) data)) in
  let colLabels :=
    Array_sort_values sortFunction (Set_from [] (map (λ d, get d colFeature) data)) in
  let matrix :=
    replicate (length rowLabels) (replicate (length colLabels) (VNum (num_of_Z 0))) in
  {| values := foldl (heatmap_step rowFeature colFeature valueFeature rowLabels colLabels)
                 matrix data;
     rowLabels := rowLabels;
     colLabels := colLabels |}.

(** *** [aggregateData] *)

(** The [Map] from group key to the values pushed so far, in insertion
    order. Keys are compared as [Map] does, which on these values is
    plain equality. *)
Abbreviation groups := (list (jsval * list num)).

Fixpoint Map_has (m : groups) (k : jsval) : bool :=
  match m with
  | [] => false
  | (k', _) :: m' => bool_decide (k' = k) || Map_has m' k
  end.

Fixpoint Map_get (m : groups) (k : jsval) : option (list num) :=
  match m with
  | [] => None
  | (k', vs) :: m' => if bool_decide (k' = k) then Some vs else Map_get m' k
  end.

(** [m.set(k, vs)]: a known key keeps its place. *)
Fixpoint Map_set (m : groups) (k : jsval) (vs : list num) : groups :=
  match m with
  | [] => [(k, vs)]
  | (k', vs') :: m' =>
    if bool_decide (k' = k) then (k, vs) :: m' else (k', vs') :: Map_set m' k vs
  end.

(** [m.get(k)!.push(v)] *)
Fixpoint Map_push (m : groups) (k : jsval) (v : num) : groups :=
  match m with
  | [] => []
  | (k', vs) :: m' =>
    if bool_decide (k' = k) then (k', vs ++ [v]) :: m' else (k', vs) :: Map_push m' k v
  end.

(** The guard of the grouping loop: the number a row contributes,
    [None] when the row is skipped. *)
Definition aggregate_value (g val : jsval) : option num :=
  if is_nullish g || is_nullish val
     || negb (bool_decide (typeof val = "number")) || isNaN val then None
  else Some (ToNumber val).

Definition groupKey (g : jsval) : jsval :=
  if bool_decide (typeof g = "number") || bool_decide (typeof g = "string") then g
  else VStr (ToString g).

Definition group_step (groupFeature numericFeature : string)
    (groupsMap : groups) (row : record) : groups :=
  let g := get row groupFeature in
  let val := get row numericFeature in
  match aggregate_value g val with
  | None => groupsMap
  | Some n =>
    let groupsMap' :=
      if negb (Map_has groupsMap (groupKey g)) then Map_set groupsMap (groupKey g) []
      else groupsMap in
    Map_push groupsMap' (groupKey g) n
  end.

Definition sum_values (values : list num) : num :=
  foldl (λ sum v, num_add sum v) (num_of_Z 0) values.

Definition average (values : list num) : num :=
  num_div (sum_values values) (num_of_nat (length values)).

Definition median (values : list num) : num :=
  let sortedVals := Array_sort (λ a b, num_sub a b) values in
  let mid := (length sortedVals / 2)%nat in
  if bool_decide ((length sortedVals) `mod` 2 = 0)%nat then
    num_div (num_add (default NaN (sortedVals !! (mid - 1)%nat))
                     (default NaN (sortedVals !! mid)))
            (num_of_Z 2)
  else default NaN (sortedVals !! mid).

Definition aggregate_method (method : string) (values : list num) : num :=
  if bool_decide (method = "sum") then sum_values values
  else if bool_decide (method = "average") then average values
  else if bool_decide (method = "median") then median values
  else if bool_decide (method = "min") then Math_min (VNum <$> values)
  else if bool_decide (method = "max") then Math_max (VNum <$> values)
  else average values.

Record aggregated : Type := { group : jsval; value : num }.

#[global] Instance aggregated_eq_dec : EqDecision aggregated.
Proof. solve_decision. Defined.

Definition aggregate_compare (a b : aggregated) : num :=
  match group a, group b with
  | VNum x, VNum y => num_sub x y
  | ga, gb => localeCompare (ToString ga) (ToString gb)
  end.

Definition aggregate_groups (data : dataset) (groupFeature numericFeature : string)
    : groups :=
  foldl (group_step groupFeature numericFeature) [] data.

Definition aggregate_entries (method : string) (groupsMap : groups) : list aggregated :=
  omap (λ '(g, values),
    if bool_decide (length values = 0%nat) then None
    else Some {| group := g; value := aggregate_method method values |}) groupsMap.

Definition aggregateData (data : dataset) (groupFeature numericFeature method : string)
    : list aggregated :=
  if bool_decide (length data = 0%nat) then []
  else
    Array_sort aggregate_compare
      (aggregate_entries method (aggregate_groups data groupFeature numericFeature)).

(** *** [applyFiltering] *)
Record Filter : Type := { column : string; operator : string; fvalue : jsval }.

Definition filter_holds (d : record) (fil : Filter) : bool :=
  let rowVal := get d (column fil) in
  if is_nullish rowVal then false
  else if bool_decide (operator fil = "==") then loose_eq rowVal (fvalue fil)
  else if bool_decide (operator fil = "<") then js_lt rowVal (VNum (ToNumber (fvalue fil)))
  else if bool_decide (operator fil = "<=") then js_le rowVal (VNum (ToNumber (fvalue fil)))
  else if bool_decide (operator fil = ">") then js_gt rowVal (VNum (ToNumber (fvalue fil)))
  else if bool_decide (operator fil = ">=") then js_ge rowVal (VNum (ToNumber (fvalue fil)))
  else true.

Definition applyFiltering (data : dataset) (filters : list Filter) : dataset :=
  List.filter (λ d, forallb (filter_holds d) filters) data.

(** *** The projections of [_Linechart] and [_Scatterplot]

    What each method hands to the renderer as [values[0]]. *)
Module Chart.

Record point : Type := { x : jsval; y : jsval }.

#[global] Instance point_eq_dec : EqDecision point.
Proof. solve_decision. Defined.

Definition project (xFeature yFeature : string) (datum : record) : point :=
  {| x := get datum xFeature; y := get datum yFeature |}.

Definition line (data : dataset) (xFeature yFeature : string) : list point :=
  Array_sort (λ a b, js_sub (x a) (x b)) (map (project xFeature yFeature) data).

Definition scatterValues (data : dataset) (xFeature yFeature : string)
    : list point :=
  map (project xFeature yFeature) data.

End Chart.


(** ** The helpers on a store

    The four stages that are claimed not to touch their input are also
    modelled on a store of arrays and objects, where an array holds
    references: [slice] and [filter] give a new array of the same
    objects, the JSON round trip gives new objects in a new array,
    [datum[feature] = ...] writes to an object and [splice] to an
    array. *)

Abbreviation loc := positive.

Inductive heapval : Type :=
  | HObject (r : record)
  | HArray (elems : list loc).

Abbreviation heap := (gmap loc heapval).

Definition read_object (h : heap) (l : loc) : option record :=
  match h !! l with
  | Some (HObject r) => Some r
  | _ => None
  end.

Definition read_array (h : heap) (a : loc) : option (list loc) :=
  match h !! a with
  | Some (HArray elems) => Some elems
  | _ => None
  end.

(** The dataset an array of objects stands for. *)
Definition read_dataset (h : heap) (a : loc) : option dataset :=
  elems ← read_array h a; mapM (read_object h) elems.

(** A new array or object, at an address not in use. *)
Definition alloc (h : heap) (v : heapval) : heap * loc :=
  let l := fresh (dom h) in (<[l := v]> h, l).

Fixpoint alloc_objects (h : heap) (rs : list record) : heap * list loc :=
  match rs with
  | [] => (h, [])
  | r :: rs' =>
    let '(h1, l) := alloc h (HObject r) in
    let '(h2, ls) := alloc_objects h1 rs' in
    (h2, l :: ls)
  end.

(** The record behind an element of an array of records. *)
Definition deref (h : heap) (l : loc) : record := default ∅ (read_object h l).

(** [sortData]: the array itself when there is nothing to sort, else a
    sorted [slice()] of it. *)
Definition sortData_h (h : heap) (data : loc) (key order : string)
    : option (heap * loc) :=
  elems ← read_array h data;
  if bool_decide (key = "") || bool_decide (length elems = 0%nat) then Some (h, data)
  else
    Some (alloc h (HArray
      (Array_sort (λ a b, sortData_compare key order (deref h a) (deref h b)) elems))).

(** [applyFiltering] *)
Definition applyFiltering_h (h : heap) (data : loc) (filters : list Filter)
    : option (heap * loc) :=
  elems ← read_array h data;
  Some (alloc h (HArray
    (List.filter (λ d, forallb (filter_holds (deref h d)) filters) elems))).

(** [JSON.parse(JSON.stringify(data))] *)
Definition JSON_clone_h (h : heap) (data : loc) : option (heap * loc) :=
  D ← read_dataset h data;
  let '(h1, ls) := alloc_objects h (JSON_clone D) in
  Some (alloc h1 (HArray ls)).

(** [datum[feature] = v(datum)] *)
Definition write_field (feature : string) (v : record → jsval) (h : heap) (datum : loc)
    : heap :=
  match read_object h datum with
  | Some r => <[datum := HObject (set r feature (v r))]> h
  | None => h
  end.

Definition normalize_feature_h (normalizedData : loc) (h : heap) (feature : string)
    : option heap :=
  elems ← read_array h normalizedData;
  let values := map (λ d, get (deref h d) feature) elems in
  let min := Math_min values in
  let max := Math_max values in
  if negb (num_eq min max) then
    Some (foldl (write_field feature (λ datum,
            VNum (num_div (js_sub (get datum feature) (VNum min)) (num_sub max min))))
            h elems)
  else Some h.

(** A [forEach] over the features whose body may fail to find its array. *)
Definition for_features (body : heap → string → option heap) (h : heap)
    (features : list string) : option heap :=
  foldl (λ oh feature, oh ≫= λ h, body h feature) (Some h) features.

(** [applyNormalization] *)
Definition applyNormalization_h (h : heap) (data : loc) (numericFeatures : list string)
    : option (heap * loc) :=
  '(h1, normalizedData) ← JSON_clone_h h data;
  h2 ← for_features (normalize_feature_h normalizedData) h1 numericFeatures;
  Some (h2, normalizedData).

Definition removeOutliers_feature_h (threshold : num) (filteredData : loc) (h : heap)
    (feature : string) : option heap :=
  elems ← read_array h filteredData;
  let bounds := outlier_bounds threshold (deref h <$> elems) feature in
  Some (<[filteredData :=
           HArray (splice_loop (λ d, is_outlier bounds feature (deref h d))
                     (length elems) elems)]> h).

(** [removeOutliers] *)
Definition removeOutliers_h (h : heap) (data : loc) (numericFeatures : list string)
    (threshold : num) : option (heap * loc) :=
  '(h1, filteredData) ← JSON_clone_h h data;
  h2 ← for_features (removeOutliers_feature_h threshold filteredData) h1
         numericFeatures;
  Some (h2, filteredData).

(** ** Notions the properties are stated with *)

(** [x] may stand before [y] for a sort that moves [a] behind [b] when
    [after a b]. *)
Definition before {A} (after : A → A → bool) (x y : A) : Prop := after x y = false.

(** The declared type admits a column without a look at the data. *)
Definition declared_numeric (ft : string * string) : Prop :=
  ft.2 = "number" ∨ ft.2 = "enum".

#[global] Instance declared_numeric_dec ft : Decision (declared_numeric ft).
Proof. unfold declared_numeric. apply _. Defined.


(** The number a row contributes to the group of key [k]: none when the
    grouping loop skips the row or files it under another key. *)
Definition contributes (groupFeature numericFeature : string) (k : jsval)
    (row : record) : option num :=
  match aggregate_value (get row groupFeature) (get row numericFeature) with
  | Some n => if bool_decide (groupKey (get row groupFeature) = k) then Some n else None
  | None => None
  end.

(** The values of the group of key [k], in dataset order. *)
Definition contributions (groupFeature numericFeature : string) (k : jsval)
    (data : dataset) : list num :=
  omap (contributes groupFeature numericFeature k) data.

(** The rows the grouping loop does not skip. *)
Definition aggregated_row (groupFeature numericFeature : string) (row : record) : bool :=
  bool_decide (is_Some
    (aggregate_value (get row groupFeature) (get row numericFeature))).


(** Records and numbers written as in the source text. *)
Definition obj (fields : list (string * jsval)) : record := list_to_map fields.
Definition int (z : Z) : jsval := VNum (num_of_Z z).

(** A value that is a number other than NaN. *)
Definition is_ordered_number (v : jsval) : Prop := ∃ n, v = VNum n ∧ n ≠ NaN.

(** The dataset of the line-chart example of the specification. *)
Definition xy_example : dataset :=
  [obj [("x", int 1); ("y", int 10)]; obj [("x", int 3); ("y", int 5)];
   obj [("x", int 2); ("y", int 8)]].


(** The cell of a matrix at a row and a column. *)
Definition cell (matrix : list (list jsval)) (i j : nat) : option jsval :=
  matrix !! i ≫= (.!! j).

(** The running [+=] over the records whose row and column values are
    strictly equal to the two labels, from zero, in dataset order. *)
Definition cell_sum (data : dataset) (rowFeature colFeature valueFeature : string)
    (rowLabel colLabel : jsval) : jsval :=
  foldl (λ acc datum,
    if strict_eq rowLabel (get datum rowFeature)
       && strict_eq colLabel (get datum colFeature)
    then js_add acc (get datum valueFeature) else acc)
    (VNum (num_of_Z 0)) data.


(** The values of a column, in dataset order. *)
Definition column_values (data : dataset) (feature : string) : list jsval :=
  (λ d, get d feature) <$> data.

(** A column that holds a finite number in every record. *)
Definition finite_column (data : dataset) (feature : string) : Prop :=
  Forall (λ d, ∃ q, get d feature = VNum (Fin q)) data.

(** The min–max scaling of one value, as [applyNormalization] writes it. *)
Definition scaled (min max : num) (v : jsval) : jsval :=
  VNum (num_div (js_sub v (VNum min)) (num_sub max min)).

(** What one round of normalization makes of a value of a column whose
    values are [values]. *)
Definition normalized (values : list jsval) (v : jsval) : jsval :=
  if num_eq (Math_min values) (Math_max values) then v
  else scaled (Math_min values) (Math_max values) v.

Definition finite_number (v : jsval) : Prop := ∃ q, v = VNum (Fin q).


(** The counterexample dataset for a second round of outlier removal,
    and the usual threshold 1.5. *)
Definition outlier_example : dataset :=
  [obj [("v", int 0)]; obj [("v", int 2)]; obj [("v", int 3)];
   obj [("v", int 3)]; obj [("v", int 3)]].

Definition threshold_default : num := Fin (Q2Qc (3 # 2)).

(** What a stage holds after its JSON round trip: beside the caller's
    store [h0], left as it was, an array [a] of objects of its own that
    stand for the dataset [D]. *)
Definition owned (h0 h : heap) (a : loc) (D : dataset) : Prop :=
  ∃ ls, h0 ⊆ h ∧ a ∉ dom h0 ∧ h !! a = Some (HArray ls) ∧ NoDup ls
        ∧ Forall (λ l, l ∉ dom h0) ls
        ∧ Forall2 (λ l r, h !! l = Some (HObject r)) ls D.

(** A store with the example dataset at address 4. *)
Definition store_example : heap :=
  {[ 1%positive := HObject (obj [("x", int 1); ("y", int 10)]);
     2%positive := HObject (obj [("x", int 3); ("y", int 5)]);
     3%positive := HObject (obj [("x", int 2); ("y", int 8)]);
     4%positive := HArray [1%positive; 2%positive; 3%positive] ]}.

(** ** Notions for the further properties *)

(** A feature paired with its declared type is classified numeric on
    [data]. *)
Definition classified_numeric (data : dataset) (ft : string * string) : Prop :=
  ft.2 = "number"
  ∨ (ft.2 = "enum" ∧ Forall (λ d, typeof (get d ft.1) = "number") data).

#[global] Instance classified_numeric_dec data ft : Decision (classified_numeric data ft).
Proof. unfold classified_numeric. apply _. Defined.

(** What a run over the columns [N] can make of a record [d]: a field
    is what it was, or it is a column of [N] and holds a number. *)
Definition touched (N : list string) (d d' : record) : Prop :=
  ∀ g, d' !! g = d !! g ∨ (g ∈ N ∧ ∃ n, d' !! g = Some (VNum n)).


(** ** The callers of the helpers *)

(** *** The filter a row of [createMultiFilterUI] builds *)



(** The filter of [applyBtn.onclick], from the chosen column and the
    contents of the three inputs. *)
Definition uiFilter (numericFeatures : list string)
    (col operatorDropdown valueInput stringValueSelect : string) : Filter :=
  if bool_decide (col ∈ numericFeatures) then
    {| column := col; operator := operatorDropdown; fvalue := VStr valueInput |}
  else {| column := col; operator := "=="; fvalue := VStr stringValueSelect |}.

(** *** The dataset [updateChart] prepares *)

(** A number read as a condition: zero and NaN are false. *)
Definition num_truthy (a : num) : bool :=
  match a with
  | NaN => false
  | Fin q => negb (Qc_zero q)
  | _ => true
  end.

Module updateChart.

(** The state of the controls; [outlierThresholdInput] is the number
    [parseFloat] reads from the threshold input. *)
Record controls : Type := {
  chartType : string;
  xFeature : string;
  yFeature : string;
  normalize : bool;
  removeOutliersChecked : bool;
  outlierThresholdInput : num;
  applyAggregation : bool;
  aggregationMethod : string;
  sortColumn : string;
  sortOrder : string }.

(** [parseFloat(...) || 1.5] *)
Definition threshold (c : controls) : num :=
  if num_truthy (outlierThresholdInput c) then outlierThresholdInput c
  else Fin (Q2Qc (3 # 2)).

(** The clone, then the filters, the outlier removal and the
    normalization, each if asked for. *)
Definition prepared (currentData : dataset) (filters : list Filter)
    (numericFeatures : list string) (c : controls) : dataset :=
  let datasetToUse := JSON_clone currentData in
  let datasetToUse :=
    if bool_decide (0 < length filters)%nat then applyFiltering datasetToUse filters
    else datasetToUse in
  let datasetToUse :=
    if removeOutliersChecked c
    then removeOutliers datasetToUse numericFeatures (threshold c)
    else datasetToUse in
  if normalize c then applyNormalization datasetToUse numericFeatures
  else datasetToUse.

Definition aggregates (c : controls) : bool :=
  applyAggregation c
  && (bool_decide (chartType c = "Bar Chart")
      || bool_decide (chartType c = "Line Chart")).

(** [{ [xFeature]: d.group, [yFeature]: d.value }] *)
Definition rename (xFeature yFeature : string) (d : aggregated) : record :=
  set (set ∅ xFeature (group d)) yFeature (VNum (value d)).

(** The dataset the charts are called with. *)
Definition datasetToUse (currentData : dataset) (filters : list Filter)
    (numericFeatures : list string) (c : controls) : dataset :=
  let datasetToUse := prepared currentData filters numericFeatures c in
  if aggregates c then
    map (rename (xFeature c) (yFeature c))
      (aggregateData datasetToUse (xFeature c) (yFeature c) (aggregationMethod c))
  else datasetToUse.

(** The dataset [_Table] is called with, in the case ['Table']. *)
Definition tableData (currentData : dataset) (filters : list Filter)
    (numericFeatures : list string) (c : controls) : dataset :=
  let datasetToUse := datasetToUse currentData filters numericFeatures c in
  if negb (bool_decide (sortColumn c = "")) && negb (bool_decide (sortOrder c = ""))
  then sortData datasetToUse (sortColumn c) (sortOrder c)
  else datasetToUse.

End updateChart.

(** *** The projections of [_Barchart] and [_Table] *)
Module Barchart.

Record bar : Type := { index : jsval; value : jsval }.

Definition data_ (data : dataset) (xFeature yFeature : string) : list bar :=
  map (λ datum, {| index := get datum xFeature; value := get datum yFeature |}) data.

End Barchart.

(** [a ?? b] *)
Definition nullish_or (a b : jsval) : jsval := if is_nullish a then b else a.

Module Table.

Definition headers (features : list string) : list string :=
  map (λ feature, feature) features.

Definition values (data : dataset) (features : list string) : list (list jsval) :=
  map (λ datum, map (λ feature, nullish_or (get datum feature) (VStr "N/A")) features)
    data.

End Table.

(** What the table shows for a field that holds [v] in the current
    data: the value, but the text N/A when it is undefined, null or a
    number that is not finite. *)
Definition shown (v : jsval) : jsval :=
  match v with
  | VUndef | VNull => VStr "N/A"
  | VNum n => if num_isFinite n then v else VStr "N/A"
  | _ => v
  end.

(** A state of the controls for a table sorted by [x], largest first,
    with outlier removal on and an empty threshold input; one for a bar
    chart of sums; and a filter as the panel builds it. *)
Definition controls_example : updateChart.controls :=
  {| updateChart.chartType := "Table";
     updateChart.xFeature := "x";
     updateChart.yFeature := "y";
     updateChart.normalize := false;
     updateChart.removeOutliersChecked := true;
     updateChart.outlierThresholdInput := NaN;
     updateChart.applyAggregation := true;
     updateChart.aggregationMethod := "sum";
     updateChart.sortColumn := "x";
     updateChart.sortOrder := "desc" |}.

Definition barchart_example : updateChart.controls :=
  {| updateChart.chartType := "Bar Chart";
     updateChart.xFeature := "x";
     updateChart.yFeature := "y";
     updateChart.normalize := false;
     updateChart.removeOutliersChecked := false;
     updateChart.outlierThresholdInput := NaN;
     updateChart.applyAggregation := true;
     updateChart.aggregationMethod := "sum";
     updateChart.sortColumn := "";
     updateChart.sortOrder := "" |}.

Definition filters_example : list Filter :=
  [uiFilter ["x"; "y"] "x" ">" "1" ""].
(** * Properties *)

(** ** The sort model *)

Section sort_by.
Context {A : Type} (after : A → A → bool).

Lemma insert_by_perm x l : insert_by after x l ≡ₚ x :: l.
Proof.
  induction l as [|y l IH]; simpl; [done|].
  destruct (after x y); [|done].
  rewrite IH. apply Permutation_swap.
Qed.

Lemma sort_by_perm l : sort_by after l ≡ₚ l.
Proof.
  induction l as [|x l IH]; simpl; [done|].
  fold (sort_by after l). by rewrite insert_by_perm, IH.
Qed.

Lemma sort_by_length l : length (sort_by after l) = length l.
Proof. by rewrite sort_by_perm. Qed.

Lemma sort_by_elem_of x l : x ∈ sort_by after l ↔ x ∈ l.
Proof. by rewrite sort_by_perm. Qed.

Lemma insert_by_HdRel z x l :
  before after z x → HdRel (before after) z l →
  HdRel (before after) z (insert_by after x l).
Proof.
  intros Hzx Hzl. destruct l as [|y l]; simpl; [by constructor|].
  destruct (after x y); constructor; [by inversion Hzl|done].
Qed.

(** A comparator never asks for both orders of a pair. *)
Hypothesis after_asym : ∀ x y, after x y = true → after y x = false.

Lemma insert_by_Sorted x l :
  Sorted (before after) l → Sorted (before after) (insert_by after x l).
Proof.
  induction 1 as [|y l Hl IH Hy]; simpl.
  - repeat constructor.
  - destruct (after x y) eqn:Hxy.
    + constructor; [done|]. apply insert_by_HdRel; [|done].
      by apply after_asym.
    + constructor; [by constructor|]. by constructor.
Qed.

Lemma sort_by_Sorted l : Sorted (before after) (sort_by after l).
Proof.
  induction l as [|x l IH]; simpl; [constructor|].
  by apply insert_by_Sorted.
Qed.

(** Sorting is stable and leaves a sorted list as it is. *)
Lemma sort_by_sorted_id l : Sorted (before after) l → sort_by after l = l.
Proof.
  induction 1 as [|x l Hl IH Hx]; simpl; [done|].
  fold (sort_by after l). rewrite IH.
  destruct Hx as [|y l Hxy]; simpl; [done|]. by rewrite Hxy.
Qed.

Lemma sort_by_idemp l : sort_by after (sort_by after l) = sort_by after l.
Proof. apply sort_by_sorted_id, sort_by_Sorted. Qed.
End sort_by.

Lemma filter_from_ext {A} (p q : A → nat → bool) i l :
  (∀ a j, p a j = q a j) → filter_from p i l = filter_from q i l.
Proof.
  intros Hpq. revert i. induction l as [|a l IH]; intros i; simpl; [done|].
  by rewrite Hpq, !IH.
Qed.

Lemma List_filter_idemp {A} (p : A → bool) l :
  List.filter p (List.filter p l) = List.filter p l.
Proof.
  induction l as [|a l IH]; simpl; [done|].
  destruct (p a) eqn:Hp; simpl; [by rewrite Hp, IH|done].
Qed.

Lemma List_filter_true {A} (p : A → bool) l :
  (∀ a, p a = true) → List.filter p l = l.
Proof.
  intros Hp. induction l as [|a l IH]; simpl; [done|]. by rewrite Hp, IH.
Qed.

Lemma List_filter_sublist {A} (p : A → bool) l : List.filter p l `sublist_of` l.
Proof.
  induction l as [|a l IH]; simpl; [done|].
  destruct (p a); by constructor.
Qed.

Lemma List_filter_stdpp {A} (p : A → bool) (P : A → Prop) `{∀ a, Decision (P a)} l :
  (∀ a, p a = true ↔ P a) → List.filter p l = filter P l.
Proof.
  intros Hp. induction l as [|a l IH]; simpl; [done|].
  rewrite filter_cons, IH. destruct (p a) eqn:Ha; case_decide; try done.
  - by apply Hp in Ha.
  - by apply Hp in H0; rewrite H0 in Ha.
Qed.

(** Filtering on an index into a second array is filtering the pairs. *)
Lemma filter_from_lookup {A B} (q : A → option B → bool) (types : list B) i l :
  (∀ a, q a None = false) →
  filter_from (λ a index, q a (types !! index)) i l
  = (List.filter (λ at_, q at_.1 (Some at_.2)) (zip l (drop i types))).*1.
Proof.
  intros Hq. revert i. induction l as [|a l IH]; intros i; simpl; [done|].
  destruct (types !! i) as [t|] eqn:Hi.
  - rewrite (drop_S _ _ _ Hi). simpl. rewrite IH.
    by destruct (q a (Some t)).
  - rewrite Hq, IH.
    rewrite !(drop_ge types) by (apply lookup_ge_None in Hi; lia).
    by destruct l.
Qed.

(** ** The column classifier *)

(** C10. On an empty dataset the classifier keeps exactly the features
    whose declared type (the entry of [types] at the same index) is
    ["number"] or ["enum"]: the check of every record holds vacuously, so
    an enum column is always promoted. *)
Theorem identifyNumericColumns_empty (features types : list string) :
  identifyNumericColumns [] features types
  = (filter declared_numeric (zip features types)).*1.
Proof.
  unfold identifyNumericColumns, Array_filter.
  rewrite (filter_from_lookup (numeric_column [])) by done.
  rewrite drop_0. f_equal. apply List_filter_stdpp.
  intros [f t]. unfold declared_numeric, numeric_column. simpl.
  repeat case_bool_decide; naive_solver.
Qed.

(** ** The filter stage *)

(** C5. Filtering twice with the same filters is filtering once, and
    filtering with no filter keeps every record. *)
Theorem applyFiltering_idempotent (D : dataset) (F : list Filter) :
  applyFiltering (applyFiltering D F) F = applyFiltering D F
  ∧ applyFiltering D [] = D.
Proof.
  split.
  - apply List_filter_idemp.
  - by apply List_filter_true.
Qed.

(** The operators [applyFiltering] tells apart. *)
Lemma IsLessThan_NaN_r (a : jsval) : IsLessThan a (VNum NaN) = None.
Proof.
  destruct a as [| |b|n|s]; simpl; try done.
  - by destruct b.
  - by destruct n.
  - by rewrite orb_true_r.
Qed.

Lemma IsLessThan_NaN_l (a : jsval) : IsLessThan (VNum NaN) a = None.
Proof. by destruct a. Qed.

(** C6. The predicate of one filter on one record. A null or absent
    field fails it. Otherwise [==] is loose equality; each ordering
    operator compares the field with the filter's value converted to a
    number, and is false when that number is NaN; any other operator
    text lets the record through. *)
Theorem filter_holds_spec (d : record) (fil : Filter) :
  let rowVal := get d (column fil) in
  let n := ToNumber (fvalue fil) in
  (d !! column fil = None ∨ rowVal = VNull ∨ rowVal = VUndef ↔
     is_nullish rowVal = true)
  ∧ (is_nullish rowVal = true → filter_holds d fil = false)
  ∧ (is_nullish rowVal = false →
       (operator fil = "==" →
          filter_holds d fil = loose_eq rowVal (fvalue fil))
       ∧ (operator fil = "<" → filter_holds d fil = js_lt rowVal (VNum n))
       ∧ (operator fil = "<=" → filter_holds d fil = js_le rowVal (VNum n))
       ∧ (operator fil = ">" → filter_holds d fil = js_gt rowVal (VNum n))
       ∧ (operator fil = ">=" → filter_holds d fil = js_ge rowVal (VNum n))
       ∧ (operator fil ∈ ["<"; "<="; ">"; ">="] → n = NaN →
            filter_holds d fil = false)
       ∧ (operator fil ∉ ["=="; "<"; "<="; ">"; ">="] →
            filter_holds d fil = true)).
Proof.
  intros rowVal n. split; [|split].
  - subst rowVal. unfold get. destruct (d !! column fil) as [[]|]; simpl;
      naive_solver.
  - intros Hnull. unfold filter_holds. fold rowVal. by rewrite Hnull.
  - intros Hnull. unfold filter_holds. fold rowVal. fold n. rewrite Hnull.
    repeat split.
    + intros ->. done.
    + intros ->. done.
    + intros ->. done.
    + intros ->. done.
    + intros ->. done.
    + intros Hop ->. unfold js_lt, js_le, js_gt, js_ge.
      rewrite IsLessThan_NaN_r, IsLessThan_NaN_l.
      repeat case_bool_decide; try done.
      * rewrite H in Hop. set_solver.
      * set_solver.
    + intros Hop. repeat case_bool_decide; try done; set_solver.
Qed.

(** ** The aggregation stage *)

(** *** The insertion-ordered map *)

Lemma Map_has_get (m : groups) k : Map_has m k = bool_decide (is_Some (Map_get m k)).
Proof.
  induction m as [|[k' vs] m IH]; simpl; [done|].
  destruct (decide (k' = k)) as [->|Hne].
  - by rewrite !bool_decide_eq_true_2 by (done || eauto).
  - by rewrite !(bool_decide_eq_false_2 (k' = k)) by done.
Qed.

Lemma Map_get_set (m : groups) k vs k' :
  Map_get (Map_set m k vs) k' = if bool_decide (k = k') then Some vs else Map_get m k'.
Proof.
  induction m as [|[k0 vs0] m IH]; simpl.
  - by repeat case_bool_decide.
  - repeat (case_bool_decide; simpl; simplify_eq); try done.
    all: rewrite IH; by repeat case_bool_decide.
Qed.

Lemma Map_get_push (m : groups) k v k' :
  Map_get (Map_push m k v) k'
  = if bool_decide (k = k') then (λ vs, vs ++ [v]) <$> Map_get m k' else Map_get m k'.
Proof.
  induction m as [|[k0 vs0] m IH]; simpl.
  - by case_bool_decide.
  - repeat (case_bool_decide; simpl; simplify_eq); try done.
    all: rewrite IH; by repeat case_bool_decide.
Qed.

Lemma Map_keys_push (m : groups) k v : (Map_push m k v).*1 = m.*1.
Proof.
  induction m as [|[k0 vs0] m IH]; csimpl; [done|].
  case_bool_decide; csimpl; [done|]. by rewrite IH.
Qed.

Lemma Map_keys_set_new (m : groups) k vs :
  Map_get m k = None → (Map_set m k vs).*1 = m.*1 ++ [k].
Proof.
  induction m as [|[k0 vs0] m IH]; csimpl; [done|].
  case_bool_decide; [done|]. intros Hk. csimpl. by rewrite IH.
Qed.

Lemma Map_get_None (m : groups) k : Map_get m k = None ↔ k ∉ m.*1.
Proof.
  induction m as [|[k0 vs0] m IH]; simpl.
  - split; [intros _; apply not_elem_of_nil|done].
  - case_bool_decide; subst.
    + split; [done|]. intros []. left.
    + rewrite IH, not_elem_of_cons. naive_solver.
Qed.

Lemma Map_get_elem_of (m : groups) k vs :
  NoDup m.*1 → (k, vs) ∈ m ↔ Map_get m k = Some vs.
Proof.
  induction m as [|[k0 vs0] m IH]; simpl.
  - intros _. split; [by intros ?%elem_of_nil|done].
  - intros [Hk0 Hm]%NoDup_cons. rewrite elem_of_cons, (IH Hm).
    case_bool_decide; subst.
    + split; [intros [?|Hget]; simplify_eq; [done|]|intros ?; simplify_eq; by left].
      apply Map_get_None in Hk0. congruence.
    + naive_solver.
Qed.

(** *** The grouping loop *)

Lemma aggregate_groups_snoc data row gF nF :
  aggregate_groups (data ++ [row]) gF nF
  = group_step gF nF (aggregate_groups data gF nF) row.
Proof. unfold aggregate_groups. by rewrite foldl_app. Qed.

Lemma contributions_snoc gF nF k data row :
  contributions gF nF k (data ++ [row])
  = contributions gF nF k data ++ option_list (contributes gF nF k row).
Proof.
  unfold contributions. rewrite omap_app. simpl.
  by destruct (contributes gF nF k row).
Qed.

(** After any prefix of the dataset the map holds each key once, and
    under it the values contributed so far. *)
Lemma aggregate_groups_inv data gF nF :
  NoDup (aggregate_groups data gF nF).*1
  ∧ ∀ k, Map_get (aggregate_groups data gF nF) k
         = match contributions gF nF k data with
           | [] => None
           | vs => Some vs
           end.
Proof.
  induction data as [|row data [IHnd IHget]] using rev_ind.
  - split; [constructor|done].
  - rewrite aggregate_groups_snoc. unfold group_step.
    set (m := aggregate_groups data gF nF) in *.
    destruct (aggregate_value (get row gF) (get row nF)) as [n|] eqn:Hval.
    + set (key := groupKey (get row gF)).
      rewrite Map_has_get. split.
      * rewrite Map_keys_push. case_bool_decide as Hhas; simpl; [done|].
        assert (Map_get m key = None) as Hnone.
        { destruct (Map_get m key) eqn:E; [|done]. destruct Hhas; eauto. }
        rewrite Map_keys_set_new by done.
        apply NoDup_app. split; [done|]. split; [|apply NoDup_singleton].
        intros k Hk ->%list_elem_of_singleton. by apply Map_get_None in Hnone.
      * intros k. rewrite contributions_snoc. unfold contributes.
        rewrite Hval. fold key. rewrite Map_get_push.
        case_bool_decide as Hk; subst; simpl.
        -- case_bool_decide as Hhas; simpl.
           ++ rewrite IHget. rewrite IHget in Hhas.
              destruct (contributions gF nF key data); [by destruct Hhas|done].
           ++ rewrite Map_get_set. rewrite bool_decide_eq_true_2 by done.
              rewrite IHget in Hhas.
              destruct (contributions gF nF key data); [done|].
              destruct Hhas; eauto.
        -- rewrite app_nil_r.
           case_bool_decide as Hhas; simpl; [apply IHget|].
           rewrite Map_get_set. rewrite bool_decide_eq_false_2 by done. apply IHget.
    + split; [done|]. intros k. rewrite contributions_snoc.
      unfold contributes. rewrite Hval. simpl. rewrite app_nil_r. apply IHget.
Qed.

Lemma contributions_nonempty gF nF k data :
  contributions gF nF k data ≠ []
  ↔ ∃ row, row ∈ data ∧ aggregated_row gF nF row = true
           ∧ groupKey (get row gF) = k.
Proof.
  unfold contributions, aggregated_row. split.
  - destruct (omap _ data) as [|n vs] eqn:E; [done|]. intros _.
    assert (n ∈ omap (contributes gF nF k) data) as Hn by (rewrite E; left).
    apply list_elem_of_omap in Hn as (row & Hrow & Hc). exists row.
    unfold contributes in Hc.
    destruct (aggregate_value _ _) eqn:Hv; [|done].
    case_bool_decide; [|done]. split; [done|]. split; [|done].
    apply bool_decide_eq_true. eauto.
  - intros (row & Hrow & [n Hn]%bool_decide_eq_true & Hk) Hnil.
    assert (n ∈ omap (contributes gF nF k) data) as Hin.
    { apply list_elem_of_omap. exists row. split; [done|].
      unfold contributes. rewrite Hn. by rewrite bool_decide_eq_true_2. }
    rewrite Hnil in Hin. by apply elem_of_nil in Hin.
Qed.

(** Every list of the map is non-empty, so every key gives an entry. *)
Lemma aggregate_entries_spec data gF nF method e :
  e ∈ aggregate_entries method (aggregate_groups data gF nF)
  ↔ contributions gF nF (group e) data ≠ []
    ∧ value e = aggregate_method method (contributions gF nF (group e) data).
Proof.
  destruct (aggregate_groups_inv data gF nF) as [Hnd Hget].
  unfold aggregate_entries. rewrite list_elem_of_omap. split.
  - intros ([k vs] & Hin & He). apply Map_get_elem_of in Hin; [|done].
    rewrite Hget in Hin. case_bool_decide; [done|]. simplify_eq. simpl.
    destruct (contributions gF nF k data); by simplify_eq.
  - intros [Hne Hval]. exists (group e, contributions gF nF (group e) data).
    split.
    + apply Map_get_elem_of; [done|]. rewrite Hget.
      by destruct (contributions gF nF (group e) data).
    + rewrite bool_decide_eq_false_2 by (by intros ?%nil_length_inv).
      destruct e. simpl in *. by subst.
Qed.

Lemma aggregate_entries_keys_gen method (m : groups) :
  Forall (λ kv, kv.2 ≠ []) m → group <$> aggregate_entries method m = m.*1.
Proof.
  unfold aggregate_entries. induction 1 as [|[k vs] m Hne _ IH]; csimpl; [done|].
  rewrite bool_decide_eq_false_2 by (by intros ?%nil_length_inv). csimpl.
  by rewrite IH.
Qed.

Lemma aggregate_entries_keys data gF nF method :
  group <$> aggregate_entries method (aggregate_groups data gF nF)
  = (aggregate_groups data gF nF).*1.
Proof.
  destruct (aggregate_groups_inv data gF nF) as [Hnd Hget].
  apply aggregate_entries_keys_gen, Forall_forall.
  intros [k vs] Hin. apply Map_get_elem_of in Hin; [|done].
  rewrite Hget in Hin. simpl.
  destruct (contributions gF nF k data); by simplify_eq.
Qed.

Lemma aggregateData_perm data gF nF method :
  aggregateData data gF nF method
  ≡ₚ aggregate_entries method (aggregate_groups data gF nF).
Proof.
  unfold aggregateData. case_bool_decide as Hlen.
  - by destruct data.
  - apply sort_by_perm.
Qed.

(** *** The order of the result *)

Lemma num_positive_sub (x y : num) : num_positive (num_sub x y) = num_lt y x.
Proof.
  unfold num_positive, num_sub.
  destruct x as [| |x|], y as [| |y|]; simpl; try done.
  apply bool_decide_ext. rewrite (Qcplus_lt_mono_r _ _ y).
  by rewrite Qcplus_0_l, <-Qcplus_assoc, (Qcplus_comm (- y)), Qcplus_opp_r, Qcplus_0_r.
Qed.

Lemma num_positive_localeCompare (s t : string) :
  num_positive (localeCompare s t) = String.ltb t s.
Proof.
  unfold localeCompare, String.ltb. rewrite (String.compare_antisym t s).
  by destruct (String.compare s t).
Qed.


Lemma num_lt_asym (x y : num) : num_lt x y = true → num_lt y x = false.
Proof.
  destruct x as [| |x|], y as [| |y|]; simpl; try done.
  intros Hxy%bool_decide_eq_true. apply bool_decide_eq_false.
  by apply Qcle_not_lt, Qclt_le_weak.
Qed.

Lemma String_ltb_asym (s t : string) : String.ltb s t = true → String.ltb t s = false.
Proof.
  unfold String.ltb. rewrite (String.compare_antisym t s).
  by destruct (String.compare s t).
Qed.




Lemma num_le_trans (x y z : num) :
  y ≠ NaN → num_lt y x = false → num_lt z y = false → num_lt z x = false.
Proof.
  destruct x as [| |x|], y as [| |y|], z as [| |z|]; simpl; try done.
  intros _ Hxy%bool_decide_eq_false Hyz%bool_decide_eq_false.
  apply bool_decide_eq_false. apply Qcle_not_lt.
  apply Qcnot_lt_le in Hxy, Hyz. by etrans.
Qed.

Lemma Sorted_mono {A} (R R' : relation A) l :
  (∀ x y, R x y → R' x y) → Sorted R l → Sorted R' l.
Proof.
  intros HR. induction 1 as [|x l Hl IH Hx]; constructor; [done|].
  destruct Hx; constructor; auto.
Qed.

Lemma Sorted_mono_on {A} (R R' : relation A) (P : A → Prop) l :
  (∀ x y, P x → P y → R x y → R' x y) → Forall P l → Sorted R l → Sorted R' l.
Proof.
  intros HR HP Hsorted. induction Hsorted as [|x l Hl IH Hx]; [constructor|].
  apply Forall_cons in HP as [HPx HPl]. constructor; [auto|].
  destruct Hx; constructor. apply Forall_cons in HPl as [HPy _]. auto.
Qed.

(** Where the order is transitive, neighbours in order means all in order. *)
Lemma Sorted_StronglySorted_on {A} (R : relation A) (P : A → Prop) l :
  (∀ x y z, P x → P y → P z → R x y → R y z → R x z) →
  Forall P l → Sorted R l → StronglySorted R l.
Proof.
  intros Htrans HP Hsorted. induction Hsorted as [|x l Hl IH Hx]; [constructor|].
  apply Forall_cons in HP as [HPx HPl]. specialize (IH HPl).
  constructor; [done|].
  destruct Hx as [|y l Hxy]; [constructor|].
  apply StronglySorted_cons in IH as [Hy IH]. apply Forall_cons in HPl as [HPy HPl].
  constructor; [done|].
  apply Forall_forall. intros z Hz.
  rewrite Forall_forall in Hy, HPl. eauto.
Qed.




Lemma aggregate_groups_filter data gF nF :
  aggregate_groups (List.filter (aggregated_row gF nF) data) gF nF
  = aggregate_groups data gF nF.
Proof.
  unfold aggregate_groups. generalize (@nil (jsval * list num)).
  induction data as [|row data IH]; intros m; simpl; [done|].
  unfold aggregated_row at 1.
  destruct (aggregate_value (get row gF) (get row nF)) as [n|] eqn:Hv.
  - rewrite bool_decide_eq_true_2 by eauto. simpl. apply IH.
  - rewrite bool_decide_eq_false_2 by (by intros [? ?]).
    rewrite IH. f_equal. unfold group_step. by rewrite Hv.
Qed.

Lemma aggregate_value_None (g val : jsval) :
  aggregate_value g val = None
  ↔ is_nullish g = true ∨ is_nullish val = true
    ∨ typeof val ≠ "number" ∨ val = VNum NaN.
Proof.
  unfold aggregate_value, isNaN.
  destruct g as [| |?|?|?], val as [| |?|[| |?|]|?]; simpl;
    try case_bool_decide; simpl; naive_solver.
Qed.

Lemma aggregate_value_Some (g val : jsval) n :
  aggregate_value g val = Some n → val = VNum n.
Proof.
  unfold aggregate_value, isNaN.
  destruct g as [| |?|?|?], val as [| |?|[| |?|]|?]; simpl;
    try case_bool_decide; simpl; naive_solver.
Qed.

Lemma aggregated_row_skipped gF nF row :
  aggregated_row gF nF row = false
  ↔ is_nullish (get row gF) = true ∨ is_nullish (get row nF) = true
    ∨ typeof (get row nF) ≠ "number" ∨ get row nF = VNum NaN.
Proof.
  unfold aggregated_row.
  by rewrite bool_decide_eq_false, <-eq_None_not_Some, aggregate_value_None.
Qed.

(** C3, as stated, fails: an infinite number is not a finite number, and
    the row that holds one is grouped all the same. *)
Lemma aggregateData_keeps_infinity :
  aggregated_row "g" "v" (obj [("g", VStr "a"); ("v", VNum PInf)]) = true
  ∧ aggregateData [obj [("g", VStr "a"); ("v", VNum PInf)]] "g" "v" "sum"
    = [{| group := VStr "a"; value := PInf |}].
Proof. split; vm_compute; reflexivity. Qed.

(** C3, amended. The rows skipped are exactly those whose grouping value
    is null or absent, or whose numeric value is null, absent, not of
    type number, or NaN. A skipped row contributes to no group: the
    result is that of the dataset without the skipped rows, and the list
    of each group holds the values of the other rows of its key, in
    order. Every row that is not skipped has its group in the result. *)
Theorem aggregateData_skips (data : dataset) (gF nF method : string) :
  (∀ row, aggregated_row gF nF row = false
     ↔ is_nullish (get row gF) = true ∨ is_nullish (get row nF) = true
       ∨ typeof (get row nF) ≠ "number" ∨ get row nF = VNum NaN)
  ∧ (∀ row n, contributes gF nF (groupKey (get row gF)) row = Some n
       ↔ aggregated_row gF nF row = true ∧ get row nF = VNum n)
  ∧ (∀ k, Map_get (aggregate_groups data gF nF) k
          = match contributions gF nF k data with [] => None | vs => Some vs end)
  ∧ aggregateData data gF nF method
    = aggregateData (List.filter (aggregated_row gF nF) data) gF nF method
  ∧ (∀ row, row ∈ data → aggregated_row gF nF row = true →
       groupKey (get row gF) ∈ group <$> aggregateData data gF nF method).
Proof.
  split; [intros row; apply aggregated_row_skipped|].
  split; [|split; [apply aggregate_groups_inv|split]].
  - intros row n. unfold contributes, aggregated_row.
    rewrite bool_decide_eq_true.
    destruct (aggregate_value (get row gF) (get row nF)) as [n'|] eqn:Hv.
    + rewrite bool_decide_eq_true_2 by done.
      apply aggregate_value_Some in Hv. rewrite Hv. naive_solver.
    + split; [done|]. by intros [[? ?] _].
  - unfold aggregateData. rewrite aggregate_groups_filter.
    repeat case_bool_decide; try done.
    + by destruct data.
    + destruct (List.filter _ data) eqn:E; [|done].
      rewrite <-(aggregate_groups_filter data), E. done.
  - intros row Hrow Hagg. rewrite aggregateData_perm, aggregate_entries_keys.
    destruct (aggregate_groups_inv data gF nF) as [_ Hget].
    assert (contributions gF nF (groupKey (get row gF)) data ≠ []) as Hne.
    { apply contributions_nonempty. eauto. }
    destruct (Map_get (aggregate_groups data gF nF) (groupKey (get row gF))) eqn:E.
    + destruct (decide (groupKey (get row gF) ∈ (aggregate_groups data gF nF).*1));
        [done|]. apply Map_get_None in n. congruence.
    + rewrite Hget in E. by destruct (contributions gF nF _ data).
Qed.


(** ** The line and scatter projections *)

Lemma js_le_numbers (x y : num) :
  x ≠ NaN → y ≠ NaN → js_le (VNum x) (VNum y) = negb (num_lt y x).
Proof. by destruct x, y. Qed.

Lemma js_le_trans_numbers (a b c : jsval) :
  is_ordered_number a → is_ordered_number b → is_ordered_number c →
  js_le a b = true → js_le b c = true → js_le a c = true.
Proof.
  intros (x & -> & Hx) (y & -> & Hy) (z & -> & Hz).
  rewrite !js_le_numbers, !negb_true_iff by done.
  intros Hxy Hyz. by apply (num_le_trans x y z).
Qed.

Lemma line_Sorted data xF yF :
  Sorted (before (λ a b, num_positive (js_sub (Chart.x a) (Chart.x b))))
    (Chart.line data xF yF).
Proof.
  apply sort_by_Sorted. intros a b. unfold js_sub.
  rewrite !num_positive_sub. apply num_lt_asym.
Qed.

(** C2, as stated, fails: the scatter projection is not sorted. On the
    example dataset it keeps 3 before 2. *)
Lemma scatterValues_not_sorted :
  Chart.scatterValues xy_example "x" "y"
  = [{| Chart.x := int 1; Chart.y := int 10 |};
     {| Chart.x := int 3; Chart.y := int 5 |};
     {| Chart.x := int 2; Chart.y := int 8 |}]
  ∧ js_le (int 3) (int 2) = false.
Proof. split; vm_compute; reflexivity. Qed.

(** C2, amended. The line-chart projection is a rearrangement of the
    [{x, y}] pairs of the dataset in which no pair is followed by one the
    comparator [a.x - b.x] puts before it; when every [x] is a number
    other than NaN this is ascending order of [x]. The scatter
    projection is the pairs in dataset order, unsorted. The example of
    the specification evaluates as stated. *)
Theorem chart_projections (data : dataset) (xF yF : string) :
  Chart.line data xF yF ≡ₚ Chart.project xF yF <$> data
  ∧ Sorted (λ a b, num_positive (js_sub (Chart.x a) (Chart.x b)) = false)
      (Chart.line data xF yF)
  ∧ (Forall (λ datum, is_ordered_number (get datum xF)) data →
     StronglySorted (λ a b, js_le (Chart.x a) (Chart.x b) = true)
       (Chart.line data xF yF))
  ∧ Chart.scatterValues data xF yF = Chart.project xF yF <$> data
  ∧ Chart.line xy_example "x" "y"
    = [{| Chart.x := int 1; Chart.y := int 10 |};
       {| Chart.x := int 2; Chart.y := int 8 |};
       {| Chart.x := int 3; Chart.y := int 5 |}].
Proof.
  split; [apply sort_by_perm|].
  split; [apply line_Sorted|].
  split; [|split; [done|by vm_compute]].
  intros Hnum.
  assert (Forall (λ p, is_ordered_number (Chart.x p)) (Chart.line data xF yF)) as HP.
  { unfold Chart.line, Array_sort. rewrite sort_by_perm.
    apply Forall_fmap. by eapply Forall_impl. }
  apply (Sorted_StronglySorted_on _ (λ p, is_ordered_number (Chart.x p)));
    [intros a b c; apply js_le_trans_numbers|done|].
  eapply Sorted_mono_on; [|done|apply line_Sorted].
  intros a b (x & Ha & Hx) (y & Hb & Hy). unfold before, js_sub.
  rewrite Ha, Hb, num_positive_sub, js_le_numbers by done. simpl.
  by intros ->.
Qed.

(** ** The heatmap matrix *)

Lemma strict_eq_eq (a b : jsval) : strict_eq a b = true → a = b.
Proof.
  destruct a as [| |?|x|?], b as [| |?|y|?];
    try (by intros ?%bool_decide_eq_true).
  destruct x, y; simpl; try done; by intros ?%bool_decide_eq_true; simplify_eq.
Qed.

Lemma Set_from_spec seen l :
  NoDup (Set_from seen l)
  ∧ ∀ x, x ∈ Set_from seen l ↔ x ∈ l ∧ x ∉ seen.
Proof.
  revert seen. induction l as [|a l IH]; intros seen; simpl.
  - split; [constructor|]. intros x. rewrite elem_of_nil. naive_solver.
  - case_bool_decide as Ha.
    + destruct (IH seen) as [Hnd Hin]. split; [done|].
      intros x. rewrite Hin, elem_of_cons. naive_solver.
    + destruct (IH (a :: seen)) as [Hnd Hin]. split.
      * constructor; [|done]. rewrite Hin, elem_of_cons. naive_solver.
      * intros x. rewrite !elem_of_cons, Hin, not_elem_of_cons.
        destruct (decide (x = a)); naive_solver.
Qed.

Lemma List_filter_split_perm {A} (p : A → bool) l :
  List.filter (λ a, negb (p a)) l ++ List.filter p l ≡ₚ l.
Proof.
  induction l as [|a l IH]; simpl; [done|].
  destruct (p a); simpl; [|by rewrite IH].
  by rewrite <-Permutation_middle, IH.
Qed.

Lemma Array_sort_values_perm comparefn l : Array_sort_values comparefn l ≡ₚ l.
Proof.
  unfold Array_sort_values, Array_sort.
  by rewrite sort_by_perm, List_filter_split_perm.
Qed.







Lemma indexOf_Some labels v i :
  indexOf labels v = Some i → ∃ l, labels !! i = Some l ∧ strict_eq l v = true.
Proof.
  revert i. induction labels as [|y labels IH]; intros i; simpl; [done|].
  destruct (strict_eq y v) eqn:Hy.
  - intros ?; simplify_eq. eauto.
  - destruct (indexOf labels v) as [i'|]; simpl; [|done].
    intros ?; simplify_eq. by apply IH.
Qed.

Lemma indexOf_first labels v i l :
  labels !! i = Some l → strict_eq l v = true → is_Some (indexOf labels v).
Proof.
  revert i. induction labels as [|y labels IH]; intros i; simpl; [done|].
  destruct (strict_eq y v) eqn:Hy; [eauto|].
  destruct i as [|i]; simpl.
  - intros ?; simplify_eq. congruence.
  - intros Hi Hl. destruct (IH _ Hi Hl) as [i' ->]. simpl. eauto.
Qed.

Lemma indexOf_NoDup labels i l v :
  NoDup labels → labels !! i = Some l →
  indexOf labels v = Some i ↔ strict_eq l v = true.
Proof.
  intros Hnd Hi. split.
  - intros (l' & Hi' & Heq)%indexOf_Some. congruence.
  - intros Heq. destruct (indexOf_first _ _ _ _ Hi Heq) as [i' Hi'].
    destruct (indexOf_Some _ _ _ Hi') as (l' & Hl' & Heq').
    apply strict_eq_eq in Heq, Heq'. subst.
    by rewrite (NoDup_lookup _ _ _ _ Hnd Hi Hl').
Qed.

Lemma cell_matrix_add matrix ri ci v i j :
  cell (matrix_add matrix ri ci v) i j
  = if bool_decide (ri = i ∧ ci = j) then (λ c, js_add c v) <$> cell matrix i j
    else cell matrix i j.
Proof.
  unfold cell, matrix_add. destruct (decide (ri = i)) as [->|Hri].
  - rewrite list_lookup_alter_eq. destruct (matrix !! i) as [row|]; simpl;
      [|by case_bool_decide].
    destruct (decide (ci = j)) as [->|Hci].
    + rewrite list_lookup_alter_eq. by rewrite bool_decide_eq_true_2.
    + rewrite list_lookup_alter_ne by done.
      rewrite bool_decide_eq_false_2; naive_solver.
  - rewrite list_lookup_alter_ne by done.
    rewrite bool_decide_eq_false_2; naive_solver.
Qed.

Lemma heatmap_cell data rF cF vF rows cols i j rl cl :
  NoDup rows → NoDup cols → rows !! i = Some rl → cols !! j = Some cl →
  ∀ matrix,
    cell (foldl (heatmap_step rF cF vF rows cols) matrix data) i j
    = (λ c, foldl (λ acc datum,
         if strict_eq rl (get datum rF) && strict_eq cl (get datum cF)
         then js_add acc (get datum vF) else acc) c data) <$> cell matrix i j.
Proof.
  intros Hr Hc Hi Hj. induction data as [|datum data IH]; intros matrix; simpl.
  - by destruct (cell matrix i j).
  - rewrite IH. unfold heatmap_step.
    assert (∀ (b : bool) (P : Prop) `{Decision P}, (P ↔ b = true) → b = bool_decide P)
      as Hdec.
    { intros [] P ? HP; symmetry;
        [apply bool_decide_eq_true|apply bool_decide_eq_false]; naive_solver. }
    rewrite (Hdec _ _ _ (indexOf_NoDup rows i rl (get datum rF) Hr Hi)).
    rewrite (Hdec _ _ _ (indexOf_NoDup cols j cl (get datum cF) Hc Hj)).
    destruct (indexOf rows (get datum rF)) as [ri|];
      destruct (indexOf cols (get datum cF)) as [ci|];
      rewrite ?cell_matrix_add; repeat case_bool_decide; simplify_eq; simpl;
      try done; try naive_solver.
    by destruct (cell matrix i j).
Qed.

Lemma heatmap_labels data f :
  let labels := Array_sort_values sortFunction (Set_from [] ((λ d, get d f) <$> data)) in
  NoDup labels ∧ ∀ v, v ∈ labels ↔ ∃ d, d ∈ data ∧ get d f = v.
Proof.
  intros labels. subst labels.
  destruct (Set_from_spec [] ((λ d, get d f) <$> data)) as [Hnd Hin].
  split; [by rewrite Array_sort_values_perm|].
  intros v. rewrite Array_sort_values_perm, Hin, list_elem_of_fmap.
  split; [intros [(d & -> & Hd) _]; eauto|].
  intros (d & Hd & <-). split; [eauto|apply not_elem_of_nil].
Qed.



Lemma cell_sum_no_match data rF cF vF rl cl :
  (∀ d, d ∈ data → ¬ (strict_eq rl (get d rF) = true
                      ∧ strict_eq cl (get d cF) = true)) →
  cell_sum data rF cF vF rl cl = VNum (num_of_Z 0).
Proof.
  unfold cell_sum. generalize (VNum (num_of_Z 0)).
  induction data as [|d data IH]; intros acc Hnone; simpl; [done|].
  rewrite IH by (intros d' Hd'; apply Hnone; by right).
  destruct (strict_eq rl (get d rF)) eqn:E1;
    destruct (strict_eq cl (get d cF)) eqn:E2; try done.
  destruct (Hnone d); [by left|done].
Qed.








(** ** The normalization stage *)

(** *** Least and greatest of finite numbers *)





(** *** Scaling into the unit interval *)








(** *** One round, then all rounds *)

Lemma get_set (d : record) f g v :
  get (set d f v) g = if bool_decide (f = g) then v else get d g.
Proof.
  unfold get, set. case_bool_decide; subst.
  - by rewrite lookup_insert_eq.
  - by rewrite lookup_insert_ne.
Qed.

Lemma normalize_feature_spec (D : dataset) f :
  Forall2 (λ d d', get d' f = normalized (column_values D f) (get d f)
                   ∧ ∀ g, g ≠ f → get d' g = get d g)
    D (normalize_feature D f).
Proof.
  unfold normalize_feature, normalized.
  change (map (λ d, get d f) D) with (column_values D f).
  destruct (num_eq _ _); simpl.
  - by apply Forall_Forall2_diag, Forall_true.
  - apply Forall2_fmap_r, Forall_Forall2_diag, Forall_true. intros d.
    split; [by rewrite get_set, bool_decide_eq_true_2|].
    intros g Hg. by rewrite get_set, bool_decide_eq_false_2.
Qed.

Lemma get_JSON_record_finite (d : record) f :
  finite_number (get d f) → get (JSON_record d) f = get d f.
Proof.
  unfold get, JSON_record. rewrite lookup_omap.
  destruct (d !! f) as [v|]; simpl; [|by intros []].
  by intros [q ->].
Qed.

Section normalization.
Context (data : dataset) (N : list string).
Hypothesis finite : ∀ f, f ∈ N → finite_column data f.







End normalization.



Example applyNormalization_example :
  applyNormalization xy_example ["x"; "y"]
  = [obj [("x", int 0); ("y", int 1)]; obj [("x", int 1); ("y", int 0)];
     obj [("x", VNum (Fin (Q2Qc (1 # 2)))); ("y", VNum (Fin (Q2Qc (3 # 5))))]].
Proof. compute_done. Qed.

(** ** The outlier-removal stage *)

(** The backward loop with its [splice] keeps the records that are not
    outliers, in order. *)
Lemma splice_loop_filter {A} (out : A → bool) (i : nat) (l : list A) :
  (i ≤ length l)%nat →
  splice_loop out i l = List.filter (λ d, negb (out d)) (take i l) ++ drop i l.
Proof.
  revert l. induction i as [|i IH]; intros l Hi; [done|]. simpl.
  destruct (lookup_lt_is_Some_2 l i) as [d Hd]; [lia|]. rewrite Hd.
  rewrite (take_S_r _ _ _ Hd), List.filter_app. simpl.
  assert (length (take i l) = i) as Hlen by (apply length_take_le; lia).
  destruct (out d); simpl.
  - rewrite IH by (rewrite length_delete by eauto; lia).
    rewrite delete_take_drop.
    rewrite take_app_length', drop_app_length' by done.
    by rewrite app_nil_r.
  - rewrite IH by lia. rewrite <-app_assoc. simpl. by rewrite (drop_S _ _ _ Hd).
Qed.

Lemma removeOutliers_feature_filter threshold (D : dataset) f :
  removeOutliers_feature threshold D f
  = List.filter (λ d, negb (is_outlier (outlier_bounds threshold D f) f d)) D.
Proof.
  unfold removeOutliers_feature. rewrite splice_loop_filter by done.
  by rewrite firstn_all, drop_all, app_nil_r.
Qed.

Lemma removeOutliers_fold_sublist threshold (D : dataset) N :
  foldl (removeOutliers_feature threshold) D N `sublist_of` D.
Proof.
  revert D. induction N as [|f N IH]; intros D; simpl; [done|].
  etrans; [apply IH|]. rewrite removeOutliers_feature_filter.
  apply List_filter_sublist.
Qed.

(** *** The clone *)

Lemma JSON_value_idemp v v' : JSON_value v = Some v' → JSON_value v' = Some v'.
Proof.
  destruct v as [| |?|n|?]; simpl; intros ?; simplify_eq; try done.
  by destruct n.
Qed.

Lemma JSON_record_idemp (r : record) : JSON_record (JSON_record r) = JSON_record r.
Proof.
  apply map_eq. intros f. unfold JSON_record. rewrite !lookup_omap.
  destruct (r !! f) as [v|]; simpl; [|done].
  destruct (JSON_value v) as [v'|] eqn:Hv; simpl; [|done].
  by apply JSON_value_idemp in Hv.
Qed.

Lemma JSON_clone_fixed (D D' : dataset) :
  D' `sublist_of` JSON_clone D → JSON_clone D' = D'.
Proof.
  intros Hsub.
  assert (Forall (λ r, JSON_record r = r) D') as Hall.
  { apply Forall_forall. intros r Hr.
    apply (elem_of_sublist _ _ _ Hr) in Hsub.
    apply list_elem_of_fmap in Hsub as (r0 & -> & _). apply JSON_record_idemp. }
  unfold JSON_clone. clear Hsub.
  induction Hall as [|r D'' Hr _ IH]; csimpl; [done|]. by rewrite Hr, IH.
Qed.

(** C1, as stated, fails: with the threshold 1.5 the first pass over the
    values 0, 2, 3, 3, 3 removes 0, and a second pass removes 2. *)
Lemma removeOutliers_not_idempotent :
  removeOutliers outlier_example ["v"] threshold_default
  = [obj [("v", int 2)]; obj [("v", int 3)]; obj [("v", int 3)]; obj [("v", int 3)]]
  ∧ removeOutliers
      (removeOutliers outlier_example ["v"] threshold_default)
      ["v"] threshold_default
    = [obj [("v", int 3)]; obj [("v", int 3)]; obj [("v", int 3)]].
Proof. split; compute_done. Qed.

(** C1, amended. The result is a subsequence of the records of the
    input as cloned, and applying [removeOutliers] to its own output
    gives a subsequence of that output, made of the same unaltered
    records: records are only ever removed, and a second pass may
    remove more of them. *)
Theorem removeOutliers_subsequence (data : dataset) (N : list string) (t : num) :
  removeOutliers data N t `sublist_of` JSON_clone data
  ∧ JSON_clone (removeOutliers data N t) = removeOutliers data N t
  ∧ removeOutliers (removeOutliers data N t) N t
    `sublist_of` removeOutliers data N t.
Proof.
  assert (removeOutliers data N t `sublist_of` JSON_clone data) as Hsub
    by apply removeOutliers_fold_sublist.
  split; [done|]. split; [by eapply JSON_clone_fixed|].
  unfold removeOutliers at 1. rewrite (JSON_clone_fixed data) by done.
  apply removeOutliers_fold_sublist.
Qed.

(** ** The stages and the caller's data *)

Lemma read_object_Some (h : heap) l r : read_object h l = Some r ↔ h !! l = Some (HObject r).
Proof. unfold read_object. destruct (h !! l) as [[]|]; naive_solver. Qed.

Lemma read_array_Some (h : heap) a ls : read_array h a = Some ls ↔ h !! a = Some (HArray ls).
Proof. unfold read_array. destruct (h !! a) as [[]|]; naive_solver. Qed.

Lemma read_dataset_Some (h : heap) a D :
  read_dataset h a = Some D
  ↔ ∃ ls, h !! a = Some (HArray ls)
          ∧ Forall2 (λ l r, h !! l = Some (HObject r)) ls D.
Proof.
  unfold read_dataset. split.
  - destruct (read_array h a) as [ls|] eqn:Ha; simpl; [|done].
    intros HD%mapM_Some. exists ls. split; [by apply read_array_Some|].
    eapply Forall2_impl; [done|]. intros l r. by apply read_object_Some.
  - intros (ls & Ha & HD). apply read_array_Some in Ha. rewrite Ha. simpl.
    apply mapM_Some. eapply Forall2_impl; [done|].
    intros l r. by apply read_object_Some.
Qed.

Lemma read_dataset_mono (h h' : heap) a D :
  h ⊆ h' → read_dataset h a = Some D → read_dataset h' a = Some D.
Proof.
  intros Hsub (ls & Ha & HD)%read_dataset_Some. apply read_dataset_Some.
  exists ls. split; [by apply (lookup_weaken h)|].
  eapply Forall2_impl; [done|]. intros l r Hl. by apply (lookup_weaken h).
Qed.

Lemma deref_objects (h : heap) ls D :
  Forall2 (λ l r, h !! l = Some (HObject r)) ls D → deref h <$> ls = D.
Proof.
  induction 1 as [|l r ls D Hl _ IH]; csimpl; [done|].
  unfold deref at 1. apply read_object_Some in Hl. by rewrite Hl, IH.
Qed.

Lemma objects_deref (h : heap) ls :
  Forall (λ l, is_Some (read_object h l)) ls →
  Forall2 (λ l r, h !! l = Some (HObject r)) ls (deref h <$> ls).
Proof.
  induction 1 as [|l ls [r Hl] _ IH]; csimpl; constructor; [|done].
  unfold deref. rewrite Hl. by apply read_object_Some.
Qed.

Lemma alloc_spec (h : heap) v :
  (alloc h v).2 ∉ dom h ∧ (alloc h v).1 = <[(alloc h v).2 := v]> h ∧ h ⊆ (alloc h v).1.
Proof.
  unfold alloc. simpl. pose proof (is_fresh (dom h)) as Hfresh.
  split; [done|]. split; [done|].
  apply insert_subseteq. by apply not_elem_of_dom.
Qed.

(** A new array of objects already in the store. *)
Lemma alloc_array (h : heap) ls D :
  Forall2 (λ l r, h !! l = Some (HObject r)) ls D →
  h ⊆ (alloc h (HArray ls)).1 ∧ (alloc h (HArray ls)).2 ∉ dom h
  ∧ read_dataset (alloc h (HArray ls)).1 (alloc h (HArray ls)).2 = Some D.
Proof.
  intros HD. destruct (alloc_spec h (HArray ls)) as (Hfresh & Heq & Hsub).
  split; [done|]. split; [done|].
  apply read_dataset_Some. exists ls. split.
  - rewrite Heq. apply lookup_insert_eq.
  - eapply Forall2_impl; [done|]. intros l r Hl. by apply (lookup_weaken h).
Qed.

Lemma insert_by_fmap {A B} (f : A → B) (after : B → B → bool) x l :
  f <$> insert_by (λ a b, after (f a) (f b)) x l = insert_by after (f x) (f <$> l).
Proof.
  induction l as [|y l IH]; csimpl; [done|].
  destruct (after (f x) (f y)); csimpl; by rewrite ?IH.
Qed.

Lemma sort_by_fmap {A B} (f : A → B) (after : B → B → bool) l :
  f <$> sort_by (λ a b, after (f a) (f b)) l = sort_by after (f <$> l).
Proof.
  induction l as [|x l IH]; csimpl; [done|].
  fold (sort_by (λ a b, after (f a) (f b)) l). fold (sort_by after (f <$> l)).
  by rewrite insert_by_fmap, IH.
Qed.

Lemma List_filter_fmap {A B} (f : A → B) (p : B → bool) l :
  f <$> List.filter (λ a, p (f a)) l = List.filter p (f <$> l).
Proof.
  induction l as [|x l IH]; csimpl; [done|].
  destruct (p (f x)); csimpl; by rewrite IH.
Qed.

Lemma objects_sublist (h : heap) ls ls' D :
  Forall2 (λ l r, h !! l = Some (HObject r)) ls D →
  (∀ l, l ∈ ls' → l ∈ ls) →
  Forall2 (λ l r, h !! l = Some (HObject r)) ls' (deref h <$> ls').
Proof.
  intros HD Hin. apply objects_deref, Forall_forall. intros l Hl.
  apply Hin in Hl. apply list_elem_of_lookup in Hl as [i Hi].
  destruct (Forall2_lookup_l _ _ _ _ _ HD Hi) as (r & _ & Hr).
  exists r. by apply read_object_Some.
Qed.

Lemma sortData_h_spec (h : heap) data D key order :
  read_dataset h data = Some D →
  ∃ h' out, sortData_h h data key order = Some (h', out)
    ∧ h ⊆ h' ∧ read_dataset h' out = Some (sortData D key order)
    ∧ if bool_decide (key = "") || bool_decide (length D = 0%nat)
      then out = data ∧ h' = h else out ∉ dom h.
Proof.
  intros HD. pose proof HD as (ls & Ha & Hobjs)%read_dataset_Some.
  unfold sortData_h, sortData. rewrite (proj2 (read_array_Some _ _ _) Ha). simpl.
  rewrite (Forall2_length _ _ _ Hobjs).
  destruct (bool_decide (key = "") || bool_decide (length D = 0%nat)).
  { by exists h, data. }
  set (ls' := Array_sort _ ls).
  assert (deref h <$> ls' = Array_sort (sortData_compare key order) D) as Hsorted.
  { subst ls'. unfold Array_sort.
    rewrite (sort_by_fmap (deref h)
      (λ a b, num_positive (sortData_compare key order a b))).
    by rewrite (deref_objects _ _ _ Hobjs). }
  destruct (alloc_array h ls' (deref h <$> ls')) as (Hsub & Hfresh & Hread).
  { eapply objects_sublist; [done|]. intros l. subst ls'. unfold Array_sort.
    by rewrite sort_by_elem_of. }
  eexists _, _. split; [done|]. by rewrite <-Hsorted.
Qed.

Lemma applyFiltering_h_spec (h : heap) data D filters :
  read_dataset h data = Some D →
  ∃ h' out, applyFiltering_h h data filters = Some (h', out)
    ∧ h ⊆ h' ∧ out ∉ dom h
    ∧ read_dataset h' out = Some (applyFiltering D filters).
Proof.
  intros HD. pose proof HD as (ls & Ha & Hobjs)%read_dataset_Some.
  unfold applyFiltering_h, applyFiltering.
  rewrite (proj2 (read_array_Some _ _ _) Ha). simpl.
  set (ls' := List.filter _ ls).
  assert (deref h <$> ls' = List.filter (λ d, forallb (filter_holds d) filters) D)
    as Hkept.
  { subst ls'.
    rewrite (List_filter_fmap (deref h) (λ d, forallb (filter_holds d) filters)).
    by rewrite (deref_objects _ _ _ Hobjs). }
  destruct (alloc_array h ls' (deref h <$> ls')) as (Hsub & Hfresh & Hread).
  { eapply objects_sublist; [done|]. intros l Hl. subst ls'.
    eapply elem_of_sublist; [done|apply List_filter_sublist]. }
  eexists _, _. split; [done|]. by rewrite <-Hkept.
Qed.

Lemma alloc_objects_spec (h : heap) rs :
  h ⊆ (alloc_objects h rs).1
  ∧ NoDup (alloc_objects h rs).2
  ∧ Forall (λ l, l ∉ dom h) (alloc_objects h rs).2
  ∧ Forall2 (λ l r, (alloc_objects h rs).1 !! l = Some (HObject r))
      (alloc_objects h rs).2 rs.
Proof.
  revert h. induction rs as [|r rs IH]; intros h; cbn [alloc_objects].
  { split; [done|]. split; [constructor|]. split; constructor. }
  destruct (alloc_spec h (HObject r)) as (Hfresh & Heq & Hsub).
  destruct (alloc h (HObject r)) as [h1 l]. cbn [fst snd] in *.
  destruct (IH h1) as (Hsub' & Hnd & Hout & Hobjs).
  destruct (alloc_objects h1 rs) as [h2 ls]. cbn [fst snd] in *.
  assert (h1 !! l = Some (HObject r)) as Hl by (rewrite Heq; apply lookup_insert_eq).
  split; [by etrans|]. split; [|split].
  - constructor; [|done]. intros Hin.
    rewrite Forall_forall in Hout. apply (Hout l Hin).
    by apply elem_of_dom.
  - constructor; [done|]. eapply Forall_impl; [done|]. simpl.
    intros l' Hl' Hin. apply Hl'. apply elem_of_dom in Hin as [v Hv].
    apply elem_of_dom. exists v. by apply (lookup_weaken h).
  - constructor; [|done]. by apply (lookup_weaken h1).
Qed.

Lemma JSON_clone_h_spec (h : heap) data D :
  read_dataset h data = Some D →
  ∃ h1 a, JSON_clone_h h data = Some (h1, a) ∧ owned h h1 a (JSON_clone D).
Proof.
  intros HD. unfold JSON_clone_h. rewrite HD. simpl.
  destruct (alloc_objects_spec h (JSON_clone D)) as (Hsub & Hnd & Hout & Hobjs).
  destruct (alloc_objects h (JSON_clone D)) as [h1 ls]. cbn [fst snd] in *.
  destruct (alloc_spec h1 (HArray ls)) as (Hfresh & Heq & Hsub').
  exists (alloc h1 (HArray ls)).1, (alloc h1 (HArray ls)).2.
  split; [done|]. exists ls.
  split; [by etrans|]. split; [|split; [|split; [done|split; [done|]]]].
  - intros Hin. apply Hfresh. apply elem_of_dom in Hin as [v Hv].
    apply elem_of_dom. exists v. by apply (lookup_weaken h).
  - rewrite Heq. apply lookup_insert_eq.
  - eapply Forall2_impl; [done|]. intros l r Hl. by apply (lookup_weaken h1).
Qed.

Lemma owned_read (h0 h : heap) a D :
  owned h0 h a D → h0 ⊆ h ∧ a ∉ dom h0 ∧ read_dataset h a = Some D.
Proof.
  intros (ls & Hsub & Ha & Harr & _ & _ & Hobjs). split; [done|]. split; [done|].
  apply read_dataset_Some. eauto.
Qed.

(** Writing a field of each object of an array of distinct objects. *)
Lemma write_fields (f : string) (v : record → jsval) (h : heap) ls D :
  NoDup ls → Forall2 (λ l r, h !! l = Some (HObject r)) ls D →
  Forall2 (λ l r, foldl (write_field f v) h ls !! l = Some (HObject r))
    ls ((λ r, set r f (v r)) <$> D)
  ∧ ∀ l, l ∉ ls → foldl (write_field f v) h ls !! l = h !! l.
Proof.
  intros Hnd Hobjs. revert h Hobjs. revert D.
  induction Hnd as [|l ls Hl Hnd IH]; intros D h Hobjs.
  { inversion Hobjs; subst. split; [by constructor|by intros]. }
  inversion Hobjs as [|? r ? D' Hr Hobjs']; subst.
  set (h1 := <[l := HObject (set r f (v r))]> h).
  assert (write_field f v h l = h1) as Hw.
  { unfold write_field. by rewrite (proj2 (read_object_Some _ _ _) Hr). }
  cbn [foldl]. rewrite Hw.
  destruct (IH D' h1) as [IHobjs IHout].
  { apply Forall2_same_length_lookup. split; [by eapply Forall2_length|].
    intros i l' r' Hi Hi'. subst h1. rewrite lookup_insert_ne.
    - apply (Forall2_lookup_lr _ _ _ _ _ _ Hobjs' Hi Hi').
    - intros ->. apply Hl. by eapply list_elem_of_lookup_2. }
  split.
  - csimpl. constructor; [|done]. rewrite IHout by done.
    subst h1. apply lookup_insert_eq.
  - intros l' [Hne Hl']%not_elem_of_cons. rewrite IHout by done.
    subst h1. by rewrite lookup_insert_ne.
Qed.

Lemma normalize_feature_h_spec (h0 h : heap) a D f :
  owned h0 h a D →
  ∃ h', normalize_feature_h a h f = Some h' ∧ owned h0 h' a (normalize_feature D f).
Proof.
  intros (ls & Hsub & Ha & Harr & Hnd & Hout & Hobjs).
  unfold normalize_feature_h, normalize_feature.
  rewrite (proj2 (read_array_Some _ _ _) Harr). simpl.
  assert (map (λ d, get (deref h d) f) ls = map (λ d, get d f) D) as ->.
  { rewrite <-(deref_objects _ _ _ Hobjs).
    change (map ?g (deref h <$> ls)) with (g <$> (deref h <$> ls)).
    by rewrite <-list_fmap_compose. }
  destruct (num_eq _ _); simpl.
  { exists h. split; [done|]. by exists ls. }
  eexists. split; [done|].
  destruct (write_fields f (λ datum, VNum (num_div
      (js_sub (get datum f) (VNum (Math_min (map (λ d, get d f) D))))
      (num_sub (Math_max (map (λ d, get d f) D)) (Math_min (map (λ d, get d f) D)))))
    h ls D Hnd Hobjs) as [Hobjs' Hframe].
  assert (a ∉ ls) as Hals.
  { intros [i Hi]%list_elem_of_lookup.
    destruct (Forall2_lookup_l _ _ _ _ _ Hobjs Hi) as (r & _ & Hr). congruence. }
  exists ls. split; [|split; [done|split; [|done]]].
  - apply map_subseteq_spec. intros l v Hl. rewrite Hframe.
    + by apply (lookup_weaken h0).
    + intros Hin. rewrite Forall_forall in Hout. apply (Hout l Hin).
      by apply elem_of_dom.
  - by rewrite Hframe.
Qed.

Lemma removeOutliers_feature_h_spec t (h0 h : heap) a D f :
  owned h0 h a D →
  ∃ h', removeOutliers_feature_h t a h f = Some h'
        ∧ owned h0 h' a (removeOutliers_feature t D f).
Proof.
  intros (ls & Hsub & Ha & Harr & Hnd & Hout & Hobjs).
  unfold removeOutliers_feature_h.
  rewrite (proj2 (read_array_Some _ _ _) Harr). simpl.
  eexists. split; [done|].
  rewrite (deref_objects _ _ _ Hobjs), removeOutliers_feature_filter.
  rewrite splice_loop_filter, firstn_all, drop_all, app_nil_r by done.
  set (bounds := outlier_bounds t D f).
  set (ls' := List.filter _ ls).
  assert (ls' `sublist_of` ls) as Hsubl by apply List_filter_sublist.
  assert (deref h <$> ls' = List.filter (λ d, negb (is_outlier bounds f d)) D) as Hkept.
  { subst ls'.
    rewrite (List_filter_fmap (deref h) (λ d, negb (is_outlier bounds f d))).
    by rewrite (deref_objects _ _ _ Hobjs). }
  exists ls'. split; [|split; [done|split; [|split; [|split]]]].
  - apply insert_subseteq_r; [by apply not_elem_of_dom|done].
  - apply lookup_insert_eq.
  - by eapply sublist_NoDup.
  - rewrite Forall_forall in *. intros l Hl. apply Hout.
    by eapply elem_of_sublist.
  - rewrite <-Hkept.
    eapply Forall2_impl;
      [eapply objects_sublist; [done|intros l Hl; by eapply elem_of_sublist]|].
    intros l r Hl. simpl in Hl. rewrite lookup_insert_ne; [done|].
    intros <-. congruence.
Qed.

Lemma for_features_owned (body : heap → string → option heap)
    (step : dataset → string → dataset) (h0 : heap) a N :
  (∀ h D f, owned h0 h a D → ∃ h', body h f = Some h' ∧ owned h0 h' a (step D f)) →
  ∀ h D, owned h0 h a D →
    ∃ h', for_features body h N = Some h' ∧ owned h0 h' a (foldl step D N).
Proof.
  intros Hbody. unfold for_features.
  induction N as [|f N IH]; intros h D Hown; simpl; [eauto|].
  destruct (Hbody h D f Hown) as (h1 & -> & Hown1). by apply IH.
Qed.

(** C9, as stated, fails: with an empty sort key [sortData] hands back
    the very array it was given, in a store it has not touched. *)
Lemma sortData_returns_input :
  sortData_h store_example 4%positive "" "asc" = Some (store_example, 4%positive).
Proof. reflexivity. Qed.

(** C9, amended. Each stage leaves the caller's store as it was, so that
    the array passed in still stands for the same dataset, record by
    record and field by field; its result is the dataset the stage
    computes. [applyFiltering], [applyNormalization] and
    [removeOutliers] return an array that did not exist before;
    [sortData] returns one too, unless the key is empty or the dataset
    is, in which case it returns the array passed in. *)
Theorem stages_leave_input (h : heap) (data : loc) (D : dataset) :
  read_dataset h data = Some D →
  (∀ filters, ∃ h' out,
     applyFiltering_h h data filters = Some (h', out)
     ∧ h ⊆ h' ∧ read_dataset h' data = Some D ∧ out ∉ dom h
     ∧ read_dataset h' out = Some (applyFiltering D filters))
  ∧ (∀ N, ∃ h' out,
       applyNormalization_h h data N = Some (h', out)
       ∧ h ⊆ h' ∧ read_dataset h' data = Some D ∧ out ∉ dom h
       ∧ read_dataset h' out = Some (applyNormalization D N))
  ∧ (∀ N t, ∃ h' out,
       removeOutliers_h h data N t = Some (h', out)
       ∧ h ⊆ h' ∧ read_dataset h' data = Some D ∧ out ∉ dom h
       ∧ read_dataset h' out = Some (removeOutliers D N t))
  ∧ (∀ key order, ∃ h' out,
       sortData_h h data key order = Some (h', out)
       ∧ h ⊆ h' ∧ read_dataset h' data = Some D
       ∧ read_dataset h' out = Some (sortData D key order)
       ∧ if bool_decide (key = "") || bool_decide (length D = 0%nat)
         then out = data ∧ h' = h else out ∉ dom h).
Proof.
  intros HD. split; [|split; [|split]].
  - intros filters.
    destruct (applyFiltering_h_spec h data D filters HD)
      as (h' & out & Hrun & Hsub & Hfresh & Hout).
    exists h', out. eauto 10 using read_dataset_mono.
  - intros N. unfold applyNormalization_h.
    destruct (JSON_clone_h_spec h data D HD) as (h1 & a & -> & Hown). simpl.
    destruct (for_features_owned (normalize_feature_h a) normalize_feature h a N
                (λ h' D' f, normalize_feature_h_spec h h' a D' f) h1 _ Hown)
      as (h2 & -> & Hown2).
    simpl. apply owned_read in Hown2 as (Hsub & Hfresh & Hout).
    exists h2, a. eauto 10 using read_dataset_mono.
  - intros N t. unfold removeOutliers_h.
    destruct (JSON_clone_h_spec h data D HD) as (h1 & a & -> & Hown). simpl.
    destruct (for_features_owned (removeOutliers_feature_h t a)
                (removeOutliers_feature t) h a N
                (λ h' D' f, removeOutliers_feature_h_spec t h h' a D' f) h1 _ Hown)
      as (h2 & -> & Hown2).
    simpl. apply owned_read in Hown2 as (Hsub & Hfresh & Hout).
    exists h2, a. eauto 10 using read_dataset_mono.
  - intros key order.
    destruct (sortData_h_spec h data D key order HD)
      as (h' & out & Hrun & Hsub & Hout & Hnew).
    exists h', out. eauto 10 using read_dataset_mono.
Qed.

Lemma stages_leave_input_witness :
  read_dataset store_example 4%positive = Some xy_example
  ∧ (∀ filters, ∃ h' out,
       applyFiltering_h store_example 4%positive filters = Some (h', out)
       ∧ store_example ⊆ h' ∧ read_dataset h' 4%positive = Some xy_example
       ∧ out ∉ dom store_example
       ∧ read_dataset h' out = Some (applyFiltering xy_example filters))
  ∧ (∀ N, ∃ h' out,
       applyNormalization_h store_example 4%positive N = Some (h', out)
       ∧ store_example ⊆ h' ∧ read_dataset h' 4%positive = Some xy_example
       ∧ out ∉ dom store_example
       ∧ read_dataset h' out = Some (applyNormalization xy_example N))
  ∧ (∀ N t, ∃ h' out,
       removeOutliers_h store_example 4%positive N t = Some (h', out)
       ∧ store_example ⊆ h' ∧ read_dataset h' 4%positive = Some xy_example
       ∧ out ∉ dom store_example
       ∧ read_dataset h' out = Some (removeOutliers xy_example N t))
  ∧ (∀ key order, ∃ h' out,
       sortData_h store_example 4%positive key order = Some (h', out)
       ∧ store_example ⊆ h' ∧ read_dataset h' 4%positive = Some xy_example
       ∧ read_dataset h' out = Some (sortData xy_example key order)
       ∧ if bool_decide (key = "") || bool_decide (length xy_example = 0%nat)
         then out = 4%positive ∧ h' = store_example
         else out ∉ dom store_example).
Proof.
  split; [reflexivity|].
  apply (stages_leave_input store_example 4%positive xy_example). reflexivity.
Defined.

(** The stages on the example store: sorting by [x] gives a new array,
    at address 5, of the three objects in a new order. *)
Example sortData_h_example :
  sortData_h store_example 4%positive "x" "asc"
  = Some (<[5%positive := HArray [1%positive; 3%positive; 2%positive]]> store_example,
          5%positive).
Proof. vm_compute. reflexivity. Qed.

(** ** Worked examples *)

(** Sorting a table by a numeric column, descending. *)
Example sortData_desc :
  sortData [obj [("n", int 3)]; obj [("n", int 1)]; obj [("n", int 2)]] "n" "desc"
  = [obj [("n", int 3)]; obj [("n", int 2)]; obj [("n", int 1)]].
Proof. vm_compute. reflexivity. Qed.

(** A filter value typed as text compares as a number; a record without
    the column is dropped, and so is every record when the text is not
    a number. *)
Example applyFiltering_text_value :
  applyFiltering
    [obj [("n", int 3)]; obj [("m", int 9)]; obj [("n", int 12)]]
    [{| column := "n"; operator := ">="; fvalue := VStr "10" |}]
  = [obj [("n", int 12)]]
  ∧ applyFiltering
      [obj [("n", int 3)]; obj [("n", int 12)]]
      [{| column := "n"; operator := "<"; fvalue := VStr "ten" |}]
    = [].
Proof. split; vm_compute; reflexivity. Qed.

(** An enum column is numeric only if every record holds a number. *)
Example identifyNumericColumns_enum :
  identifyNumericColumns
    [obj [("a", int 1); ("b", VStr "u")]; obj [("a", int 2); ("b", int 3)]]
    ["a"; "b"; "c"] ["enum"; "enum"; "string"]
  = ["a"].
Proof. vm_compute. reflexivity. Qed.

(** The median of an even group is the mean of its two middle values. *)
Example aggregateData_median :
  aggregateData
    [obj [("g", int 1); ("v", int 4)]; obj [("g", int 1); ("v", int 1)];
     obj [("g", int 1); ("v", int 3)]; obj [("g", int 1); ("v", int 2)]]
    "g" "v" "median"
  = [{| group := int 1; value := Fin (Q2Qc (5 # 2)) |}].
Proof. compute_done. Qed.

(** The JSON round trip drops an undefined field and turns NaN to null. *)
Example JSON_clone_example :
  JSON_clone [obj [("a", VUndef); ("b", VNum NaN); ("c", VStr "s")]]
  = [obj [("b", VNull); ("c", VStr "s")]].
Proof. vm_compute. reflexivity. Qed.

(** * Further properties of the helpers *)

Local Open Scope nat_scope.

(** ** [sortData] *)

Lemma num_positive_zero : num_positive (num_of_Z 0) = false.
Proof. reflexivity. Qed.

Lemma localeCompare_asym (s t : string) :
  num_positive (localeCompare s t) = true → num_positive (localeCompare t s) = false.
Proof. rewrite !num_positive_localeCompare. apply String_ltb_asym. Qed.

Lemma sortData_compare_asym key order (a b : record) :
  num_positive (sortData_compare key order a b) = true →
  num_positive (sortData_compare key order b a) = false.
Proof.
  unfold sortData_compare.
  destruct (get a key) as [| |?|x|s], (get b key) as [| |?|y|t];
    rewrite ?num_positive_zero; try done; case_bool_decide;
    rewrite ?num_positive_sub;
    first [apply num_lt_asym | apply localeCompare_asym].
Qed.

(** X1. Whatever the key and the order, [sortData] rearranges the
    records without losing or repeating one, and sorting its result
    again with the same key and order changes nothing. *)
Theorem sortData_perm_idemp (data : dataset) (key order : string) :
  sortData data key order ≡ₚ data
  ∧ length (sortData data key order) = length data
  ∧ sortData (sortData data key order) key order = sortData data key order.
Proof.
  assert (sortData data key order ≡ₚ data) as Hperm.
  { unfold sortData. destruct (_ || _); [done|apply sort_by_perm]. }
  assert (length (sortData data key order) = length data) as Hlen
    by (by rewrite Hperm).
  split; [done|]. split; [done|].
  unfold sortData at 1. rewrite Hlen. unfold sortData.
  destruct (bool_decide (key = "") || bool_decide (length data = 0%nat));
    [done|].
  apply sort_by_idemp. intros a b. apply sortData_compare_asym.
Qed.












Lemma Sorted_all {A} (R : relation A) (P : A → Prop) l :
  (∀ a b, P a → R a b) → Forall P l → Sorted R l.
Proof.
  intros HR. induction 1 as [|a l Ha _ IH]; constructor; [done|].
  destruct l; constructor. by apply HR.
Qed.

(** X3. When no record holds a number or a text under the key (the
    column is absent, null or boolean throughout), the comparator calls
    every pair equal and [sortData] returns the records in their
    original order. *)
Theorem sortData_unsortable (data : dataset) (key order : string) :
  Forall (λ d, typeof (get d key) ≠ "number" ∧ typeof (get d key) ≠ "string") data →
  sortData data key order = data.
Proof.
  intros Hkind. unfold sortData. destruct (_ || _); [done|].
  apply sort_by_sorted_id.
  eapply Sorted_all; [|exact Hkind]. simpl.
  intros a b [Hnum Hstr]. unfold before, sortData_compare.
  by destruct (get a key).
Qed.

Lemma sortData_unsortable_witness : sortData xy_example "z" "asc" = xy_example.
Proof.
  apply (sortData_unsortable xy_example "z" "asc"). unfold xy_example.
  repeat (apply Forall_cons; split; [by split|]). constructor.
Defined.

(** ** [applyFiltering] *)

Lemma List_filter_andb {A} (p q : A → bool) l :
  List.filter (λ a, p a && q a) l = List.filter q (List.filter p l).
Proof.
  induction l as [|a l IH]; simpl; [done|].
  destruct (p a); simpl; [destruct (q a)|]; by rewrite IH.
Qed.

Lemma List_filter_ext_in {A} (p q : A → bool) l :
  (∀ a, a ∈ l → p a = q a) → List.filter p l = List.filter q l.
Proof.
  induction l as [|a l IH]; intros Hpq; simpl; [done|].
  rewrite (Hpq a) by left. rewrite IH; [done|]. intros b Hb. apply Hpq. by right.
Qed.

Lemma forallb_Permutation {A} (p : A → bool) l l' :
  l ≡ₚ l' → forallb p l = forallb p l'.
Proof.
  induction 1 as [|a l l' _ IH|a b l|l1 l2 l3 _ IH1 _ IH2]; simpl.
  - done.
  - by rewrite IH.
  - by rewrite !andb_assoc, (andb_comm (p b)).
  - congruence.
Qed.

(** X4. A list of filters is a conjunction: filtering with two lists in
    a row is filtering with them joined, and the order in which the
    filters are listed does not matter. *)
Theorem applyFiltering_conjunction (D : dataset) (F1 F2 : list Filter) :
  applyFiltering D (F1 ++ F2) = applyFiltering (applyFiltering D F1) F2
  ∧ (∀ F, F ≡ₚ F1 → applyFiltering D F = applyFiltering D F1)
  ∧ applyFiltering (applyFiltering D F1) F2 = applyFiltering (applyFiltering D F2) F1.
Proof.
  assert (∀ F F', F ≡ₚ F' → applyFiltering D F = applyFiltering D F') as Hperm.
  { intros F F' HF. unfold applyFiltering. apply List_filter_ext_in.
    intros d _. by apply forallb_Permutation. }
  assert (∀ G1 G2,
    applyFiltering D (G1 ++ G2) = applyFiltering (applyFiltering D G1) G2) as Happ.
  { intros G1 G2. unfold applyFiltering. rewrite <-List_filter_andb.
    apply List_filter_ext_in. intros d _. apply forallb_app. }
  split; [apply Happ|]. split; [auto|].
  rewrite <-!Happ. apply Hperm, Permutation_app_comm.
Qed.

(** X5. The result is a subsequence of the dataset, and a filter on a
    column that every record lacks (or holds null in) leaves nothing,
    whatever its operator, known or not. *)
Theorem applyFiltering_missing_column (D : dataset) (F : list Filter) (fil : Filter) :
  applyFiltering D F `sublist_of` D
  ∧ (fil ∈ F → Forall (λ d, is_nullish (get d (column fil)) = true) D →
     applyFiltering D F = []).
Proof.
  split; [apply List_filter_sublist|].
  intros Hfil Hnull. unfold applyFiltering.
  induction Hnull as [|d D Hd _ IH]; simpl; [done|].
  assert (forallb (filter_holds d) F = false) as ->; [|done].
  apply not_true_iff_false. rewrite forallb_forall. intros Hall.
  apply list_elem_of_In in Hfil. specialize (Hall fil Hfil).
  unfold filter_holds in Hall. by rewrite Hd in Hall.
Qed.

(** ** [identifyNumericColumns] *)

Lemma filter_from_sublist_impl {A} (p q : A → nat → bool) i l :
  (∀ a j, p a j = true → q a j = true) →
  filter_from p i l `sublist_of` filter_from q i l.
Proof.
  intros Hpq. revert i. induction l as [|a l IH]; intros i; simpl; [done|].
  destruct (p a i) eqn:Hp.
  - rewrite (Hpq _ _ Hp). by constructor.
  - destruct (q a i); [constructor|]; apply IH.
Qed.

Lemma filter_from_sublist {A} (p : A → nat → bool) i l :
  filter_from p i l `sublist_of` l.
Proof.
  revert i. induction l as [|a l IH]; intros i; simpl; [done|].
  destruct (p a i); by constructor.
Qed.

Lemma numeric_column_classified data f t :
  numeric_column data f (Some t) = true ↔ classified_numeric data (f, t).
Proof.
  unfold numeric_column, classified_numeric. simpl.
  repeat case_bool_decide; simplify_eq.
  - naive_solver.
  - rewrite forallb_forall, Forall_forall.
    split.
    + intros Hall. right. split; [done|]. intros d Hd%list_elem_of_In.
      by apply (bool_decide_unpack _), Is_true_true, Hall.
    + intros [?|[_ Hall]]; [done|]. intros d Hd%list_elem_of_In.
      by apply bool_decide_eq_true_2, Hall.
  - naive_solver.
Qed.

(** X6. On any dataset the classifier keeps, in their order, exactly
    the features whose declared type is ['number'] (the data are not
    looked at) or is ['enum'] with a number in every record; a feature
    with no declared type is dropped. Further records can only remove
    features from the result. *)
Theorem identifyNumericColumns_spec (data more : dataset) (features types : list string) :
  identifyNumericColumns data features types
  = (filter (classified_numeric data) (zip features types)).*1
  ∧ identifyNumericColumns data features types `sublist_of` features
  ∧ identifyNumericColumns (data ++ more) features types
    `sublist_of` identifyNumericColumns data features types.
Proof.
  split; [|split].
  - unfold identifyNumericColumns, Array_filter.
    rewrite (filter_from_lookup (numeric_column data)) by done.
    rewrite drop_0. f_equal. apply List_filter_stdpp.
    intros [f t]. apply numeric_column_classified.
  - apply filter_from_sublist.
  - apply filter_from_sublist_impl. intros f i. unfold numeric_column.
    repeat case_bool_decide; try done.
    rewrite forallb_app. by intros [? _]%andb_true_iff.
Qed.

(** ** [aggregateData], every method *)

Lemma aggregateData_keys data gF nF method :
  group <$> aggregateData data gF nF method ≡ₚ (aggregate_groups data gF nF).*1.
Proof. by rewrite aggregateData_perm, aggregate_entries_keys. Qed.

Lemma aggregate_groups_key data gF nF k :
  k ∈ (aggregate_groups data gF nF).*1 ↔ contributions gF nF k data ≠ [].
Proof.
  destruct (aggregate_groups_inv data gF nF) as [_ Hget]. specialize (Hget k).
  split.
  - intros Hk Hnil. rewrite Hnil in Hget. by apply Map_get_None in Hget.
  - intros Hne. destruct (decide (k ∈ (aggregate_groups data gF nF).*1)) as [|Hk];
      [done|]. apply Map_get_None in Hk. rewrite Hk in Hget.
    by destruct (contributions gF nF k data).
Qed.

Lemma Map_set_length (m : groups) k vs : length (Map_set m k vs) ≤ S (length m).
Proof.
  induction m as [|[k' vs'] m IH]; simpl; [lia|].
  case_bool_decide; simpl; lia.
Qed.

Lemma Map_push_length (m : groups) k v : length (Map_push m k v) = length m.
Proof.
  induction m as [|[k' vs'] m IH]; simpl; [done|].
  case_bool_decide; simpl; by rewrite ?IH.
Qed.

Lemma aggregate_groups_length data gF nF :
  length (aggregate_groups data gF nF) ≤ length data.
Proof.
  induction data as [|row data IH] using rev_ind; [done|].
  rewrite aggregate_groups_snoc, length_app. simpl. unfold group_step.
  destruct (aggregate_value _ _); [|lia].
  rewrite Map_push_length. destruct (negb _); [|lia].
  pose proof (Map_set_length (aggregate_groups data gF nF)
                (groupKey (get row gF)) []). lia.
Qed.

Lemma groupKey_typeof (g : jsval) :
  typeof (groupKey g) = "number" ∨ typeof (groupKey g) = "string".
Proof. destruct g; unfold groupKey; simpl; auto. Qed.

(** X7. For every method the result holds one entry per key under which
    a row was grouped, and no other; every key is a number or a text (a
    boolean grouping value is filed under its text); there are no more
    entries than rows, and none at all exactly when every row is
    skipped. *)
Theorem aggregateData_groups (data : dataset) (gF nF method : string) :
  let out := aggregateData data gF nF method in
  NoDup (group <$> out)
  ∧ (∀ k, k ∈ group <$> out
       ↔ ∃ row, row ∈ data ∧ aggregated_row gF nF row = true
                ∧ groupKey (get row gF) = k)
  ∧ Forall (λ e, typeof (group e) = "number" ∨ typeof (group e) = "string") out
  ∧ length out ≤ length data
  ∧ (out = [] ↔ Forall (λ row, aggregated_row gF nF row = false) data).
Proof.
  intros out.
  pose proof (aggregateData_keys data gF nF method) as Hkeys. fold out in Hkeys.
  destruct (aggregate_groups_inv data gF nF) as [Hnd _].
  assert (∀ k, k ∈ group <$> out
       ↔ ∃ row, row ∈ data ∧ aggregated_row gF nF row = true
                ∧ groupKey (get row gF) = k) as Hkey.
  { intros k. by rewrite Hkeys, aggregate_groups_key, contributions_nonempty. }
  split; [by rewrite Hkeys|]. split; [done|]. split; [|split].
  - apply Forall_forall. intros e He.
    assert (group e ∈ group <$> out) as Hin by (by apply list_elem_of_fmap_2).
    apply Hkey in Hin as (row & _ & _ & <-). apply groupKey_typeof.
  - rewrite <-(length_fmap group), Hkeys, length_fmap.
    apply aggregate_groups_length.
  - split.
    + intros Hnil. apply Forall_forall. intros row Hrow.
      destruct (aggregated_row gF nF row) eqn:Hagg; [|done].
      assert (groupKey (get row gF) ∈ group <$> out) as Hin by (apply Hkey; eauto).
      rewrite Hnil in Hin. by apply elem_of_nil in Hin.
    + intros Hall. destruct out as [|e out'] eqn:Hout; [done|].
      assert (group e ∈ group <$> e :: out') as Hin by left.
      apply Hkey in Hin as (row & Hrow & Hagg & _).
      rewrite Forall_forall in Hall. rewrite (Hall row Hrow) in Hagg. done.
Qed.

(** *** Least and greatest of numbers other than NaN *)

Lemma num_lt_irrefl (a : num) : num_lt a a = false.
Proof.
  destruct a as [| |q|]; simpl; try done.
  apply bool_decide_eq_false. apply Qcle_not_lt, Qcle_refl.
Qed.

Lemma num_lt_total (a b : num) :
  a ≠ NaN → b ≠ NaN → num_lt a b = false → num_lt b a = false → a = b.
Proof.
  destruct a as [| |x|], b as [| |y|]; simpl; try done.
  intros _ _ Hab%bool_decide_eq_false Hba%bool_decide_eq_false.
  f_equal. apply Qcle_antisym; by apply Qcnot_lt_le.
Qed.

Lemma num_min2_spec (a b : num) :
  a ≠ NaN → b ≠ NaN →
  num_min2 a b ≠ NaN ∧ (num_min2 a b = a ∨ num_min2 a b = b)
  ∧ num_lt a (num_min2 a b) = false ∧ num_lt b (num_min2 a b) = false.
Proof.
  intros Ha Hb. assert (num_min2 a b = if num_lt b a then b else a) as ->
    by (by destruct a, b).
  destruct (num_lt b a) eqn:Hba.
  - split; [done|]. split; [by right|]. split; [by apply num_lt_asym|].
    apply num_lt_irrefl.
  - split; [done|]. split; [by left|]. split; [apply num_lt_irrefl|done].
Qed.

Lemma num_max2_spec (a b : num) :
  a ≠ NaN → b ≠ NaN →
  num_max2 a b ≠ NaN ∧ (num_max2 a b = a ∨ num_max2 a b = b)
  ∧ num_lt (num_max2 a b) a = false ∧ num_lt (num_max2 a b) b = false.
Proof.
  intros Ha Hb. assert (num_max2 a b = if num_lt a b then b else a) as ->
    by (by destruct a, b).
  destruct (num_lt a b) eqn:Hab.
  - split; [done|]. split; [by right|]. split; [by apply num_lt_asym|].
    apply num_lt_irrefl.
  - split; [done|]. split; [by left|]. split; [apply num_lt_irrefl|done].
Qed.

Lemma min_list_from (a : num) (l : list num) :
  a ≠ NaN → Forall (λ x, x ≠ NaN) l →
  foldl num_min2 a l ≠ NaN ∧ foldl num_min2 a l ∈ a :: l
  ∧ ∀ x, x ∈ a :: l → num_lt x (foldl num_min2 a l) = false.
Proof.
  intros Ha Hl. revert a Ha. induction Hl as [|b l Hb _ IH]; intros a Ha; simpl.
  - split; [done|]. split; [left|].
    intros x ->%list_elem_of_singleton. apply num_lt_irrefl.
  - destruct (num_min2_spec a b Ha Hb) as (Hm & Hor & Hma & Hmb).
    destruct (IH _ Hm) as (Hne & Hin & Hle).
    split; [done|]. split.
    + apply elem_of_cons in Hin as [->|Hin]; [|by do 2 right].
      destruct Hor as [->| ->]; [left|right; left].
    + assert (num_lt (num_min2 a b) (foldl num_min2 (num_min2 a b) l) = false)
        as Hmin by (apply Hle; left).
      intros x [->|[->|Hx]%elem_of_cons]%elem_of_cons.
      * by apply (num_le_trans _ (num_min2 a b)).
      * by apply (num_le_trans _ (num_min2 a b)).
      * apply Hle. by right.
Qed.

Lemma max_list_from (a : num) (l : list num) :
  a ≠ NaN → Forall (λ x, x ≠ NaN) l →
  foldl num_max2 a l ≠ NaN ∧ foldl num_max2 a l ∈ a :: l
  ∧ ∀ x, x ∈ a :: l → num_lt (foldl num_max2 a l) x = false.
Proof.
  intros Ha Hl. revert a Ha. induction Hl as [|b l Hb _ IH]; intros a Ha; simpl.
  - split; [done|]. split; [left|].
    intros x ->%list_elem_of_singleton. apply num_lt_irrefl.
  - destruct (num_max2_spec a b Ha Hb) as (Hm & Hor & Hma & Hmb).
    destruct (IH _ Hm) as (Hne & Hin & Hle).
    split; [done|]. split.
    + apply elem_of_cons in Hin as [->|Hin]; [|by do 2 right].
      destruct Hor as [->| ->]; [left|right; left].
    + assert (num_lt (foldl num_max2 (num_max2 a b) l) (num_max2 a b) = false)
        as Hmax by (apply Hle; left).
      intros x [->|[->|Hx]%elem_of_cons]%elem_of_cons.
      * by apply (num_le_trans _ (num_max2 a b)).
      * by apply (num_le_trans _ (num_max2 a b)).
      * apply Hle. by right.
Qed.

Lemma min_list_spec (l : list num) :
  l ≠ [] → Forall (λ x, x ≠ NaN) l →
  min_list l ∈ l ∧ ∀ x, x ∈ l → num_lt x (min_list l) = false.
Proof.
  destruct l as [|a l]; [done|]. intros _ [Ha Hl]%Forall_cons.
  unfold min_list. cbn [foldl].
  assert (num_min2 PInf a = a) as -> by (by destruct a).
  by destruct (min_list_from a l Ha Hl) as (_ & ? & ?).
Qed.

Lemma max_list_spec (l : list num) :
  l ≠ [] → Forall (λ x, x ≠ NaN) l →
  max_list l ∈ l ∧ ∀ x, x ∈ l → num_lt (max_list l) x = false.
Proof.
  destruct l as [|a l]; [done|]. intros _ [Ha Hl]%Forall_cons.
  unfold max_list. cbn [foldl].
  assert (num_max2 NInf a = a) as -> by (by destruct a).
  by destruct (max_list_from a l Ha Hl) as (_ & ? & ?).
Qed.

Lemma Math_min_numbers (vs : list num) : Math_min (VNum <$> vs) = min_list vs.
Proof.
  unfold Math_min. rewrite <-list_fmap_compose.
  rewrite (list_fmap_ext _ id vs) by done. by rewrite list_fmap_id.
Qed.

Lemma Math_max_numbers (vs : list num) : Math_max (VNum <$> vs) = max_list vs.
Proof.
  unfold Math_max. rewrite <-list_fmap_compose.
  rewrite (list_fmap_ext _ id vs) by done. by rewrite list_fmap_id.
Qed.

Lemma contributions_not_NaN gF nF k data :
  Forall (λ x, x ≠ NaN) (contributions gF nF k data).
Proof.
  apply Forall_forall. intros n (row & _ & Hc)%list_elem_of_omap.
  unfold contributes in Hc.
  destruct (aggregate_value (get row gF) (get row nF)) as [n'|] eqn:Hv; [|done].
  case_bool_decide; simplify_eq.
  pose proof (aggregate_value_Some _ _ _ Hv) as Hval. intros ->.
  assert (aggregate_value (get row gF) (get row nF) = None) as Hnone
    by (apply aggregate_value_None; auto).
  congruence.
Qed.

(** X8. With method ['min'] the value of an entry is one of the values
    of its group and none of them is below it; with ['max'] it is one
    of them and none is above it. *)
Theorem aggregateData_min_max (data : dataset) (gF nF : string) :
  (∀ e, e ∈ aggregateData data gF nF "min" →
     value e ∈ contributions gF nF (group e) data
     ∧ ∀ v, v ∈ contributions gF nF (group e) data → num_lt v (value e) = false)
  ∧ (∀ e, e ∈ aggregateData data gF nF "max" →
       value e ∈ contributions gF nF (group e) data
       ∧ ∀ v, v ∈ contributions gF nF (group e) data → num_lt (value e) v = false).
Proof.
  split; intros e He; rewrite aggregateData_perm in He;
    apply aggregate_entries_spec in He as [Hne ->];
    pose proof (contributions_not_NaN gF nF (group e) data) as Hnan.
  - change (aggregate_method "min" ?vs) with (Math_min (VNum <$> vs)).
    rewrite Math_min_numbers. by apply min_list_spec.
  - change (aggregate_method "max" ?vs) with (Math_max (VNum <$> vs)).
    rewrite Math_max_numbers. by apply max_list_spec.
Qed.

(** *** The order of the records *)

Lemma sort_numbers_StronglySorted (vs : list num) :
  Forall (λ x, x ≠ NaN) vs →
  StronglySorted (λ a b, num_lt b a = false) (Array_sort (λ a b, num_sub a b) vs).
Proof.
  intros Hvs. unfold Array_sort.
  apply (Sorted_StronglySorted_on _ (λ x, x ≠ NaN)).
  - intros x y z _ Hy _. apply num_le_trans. done.
  - by rewrite sort_by_perm.
  - eapply Sorted_mono; [|apply sort_by_Sorted].
    + intros a b. unfold before. by rewrite num_positive_sub.
    + intros a b. rewrite !num_positive_sub. apply num_lt_asym.
Qed.

Lemma sort_numbers_Permutation (vs vs' : list num) :
  Forall (λ x, x ≠ NaN) vs → vs ≡ₚ vs' →
  Array_sort (λ a b, num_sub a b) vs = Array_sort (λ a b, num_sub a b) vs'.
Proof.
  intros Hvs Hperm.
  assert (Forall (λ x, x ≠ NaN) vs') as Hvs' by (by rewrite <-Hperm).
  eapply (StronglySorted_unique_strong (λ a b, num_lt b a = false)).
  - intros x1 x2 Hx1 Hx2 H12 H21. unfold Array_sort in Hx1, Hx2.
    rewrite sort_by_elem_of in Hx1, Hx2. rewrite Forall_forall in Hvs, Hvs'.
    apply num_lt_total; auto.
  - by apply sort_numbers_StronglySorted.
  - by apply sort_numbers_StronglySorted.
  - unfold Array_sort. by rewrite !sort_by_perm.
Qed.

Lemma median_Permutation (vs vs' : list num) :
  Forall (λ x, x ≠ NaN) vs → vs ≡ₚ vs' → median vs = median vs'.
Proof.
  intros Hvs Hperm. unfold median.
  by rewrite (sort_numbers_Permutation vs vs').
Qed.

Lemma min_list_Permutation (vs vs' : list num) :
  Forall (λ x, x ≠ NaN) vs → vs ≡ₚ vs' → min_list vs = min_list vs'.
Proof.
  intros Hvs Hperm.
  assert (Forall (λ x, x ≠ NaN) vs') as Hvs' by (by rewrite <-Hperm).
  destruct vs as [|a vs].
  { apply Permutation_nil_l in Hperm. by subst. }
  assert (vs' ≠ []) as Hne'.
  { intros ->. by apply Permutation_nil_r in Hperm. }
  destruct (min_list_spec (a :: vs)) as [Hin Hle]; [done..|].
  destruct (min_list_spec vs' Hne' Hvs') as [Hin' Hle'].
  rewrite Forall_forall in Hvs'.
  apply num_lt_total.
  - rewrite Forall_forall in Hvs. by apply Hvs.
  - by apply Hvs'.
  - apply Hle'. by rewrite <-Hperm.
  - apply Hle. by rewrite Hperm.
Qed.

Lemma max_list_Permutation (vs vs' : list num) :
  Forall (λ x, x ≠ NaN) vs → vs ≡ₚ vs' → max_list vs = max_list vs'.
Proof.
  intros Hvs Hperm.
  assert (Forall (λ x, x ≠ NaN) vs') as Hvs' by (by rewrite <-Hperm).
  destruct vs as [|a vs].
  { apply Permutation_nil_l in Hperm. by subst. }
  assert (vs' ≠ []) as Hne'.
  { intros ->. by apply Permutation_nil_r in Hperm. }
  destruct (max_list_spec (a :: vs)) as [Hin Hle]; [done..|].
  destruct (max_list_spec vs' Hne' Hvs') as [Hin' Hle'].
  rewrite Forall_forall in Hvs'.
  apply num_lt_total.
  - rewrite Forall_forall in Hvs. by apply Hvs.
  - by apply Hvs'.
  - apply Hle. by rewrite Hperm.
  - apply Hle'. by rewrite <-Hperm.
Qed.

(** X9. For the methods ['median'], ['min'] and ['max'] the order of the
    records does not matter: two datasets with the same records in any
    order give the same entries. *)
Theorem aggregateData_record_order (data data' : dataset) (gF nF method : string) :
  data ≡ₚ data' → method ∈ ["median"; "min"; "max"] →
  aggregateData data gF nF method ≡ₚ aggregateData data' gF nF method.
Proof.
  intros Hperm Hmethod.
  assert (∀ k, contributions gF nF k data ≡ₚ contributions gF nF k data') as Hc.
  { intros k. unfold contributions. by rewrite Hperm. }
  assert (∀ k, aggregate_method method (contributions gF nF k data)
             = aggregate_method method (contributions gF nF k data')) as Hm.
  { intros k. pose proof (contributions_not_NaN gF nF k data) as Hnan.
    specialize (Hc k).
    apply elem_of_cons in Hmethod as [->|Hmethod];
      [|apply elem_of_cons in Hmethod as [->|Hmethod];
        [|apply list_elem_of_singleton in Hmethod as ->]].
    - change (aggregate_method "median" ?vs) with (median vs).
      by apply median_Permutation.
    - change (aggregate_method "min" ?vs) with (Math_min (VNum <$> vs)).
      rewrite !Math_min_numbers. by apply min_list_Permutation.
    - change (aggregate_method "max" ?vs) with (Math_max (VNum <$> vs)).
      rewrite !Math_max_numbers. by apply max_list_Permutation. }
  apply NoDup_Permutation.
  - apply (NoDup_fmap_1 group). rewrite aggregateData_keys.
    apply aggregate_groups_inv.
  - apply (NoDup_fmap_1 group). rewrite aggregateData_keys.
    apply aggregate_groups_inv.
  - intros e. rewrite !aggregateData_perm, !aggregate_entries_spec, Hm.
    assert (contributions gF nF (group e) data ≠ []
            ↔ contributions gF nF (group e) data' ≠ []) as ->; [|done].
    specialize (Hc (group e)).
    split; intros Hne Hnil; apply Hne; rewrite Hnil in Hc.
    + by apply Permutation_nil_r in Hc.
    + by apply Permutation_nil_l in Hc.
Qed.

Lemma aggregateData_record_order_witness :
  aggregateData
    [obj [("g", VStr "a"); ("v", int 4)]; obj [("g", VStr "a"); ("v", int 1)]]
    "g" "v" "median"
  ≡ₚ aggregateData
       [obj [("g", VStr "a"); ("v", int 1)]; obj [("g", VStr "a"); ("v", int 4)]]
       "g" "v" "median".
Proof.
  apply aggregateData_record_order; [apply Permutation_swap|].
  left.
Defined.

(** ** [removeOutliers] with a threshold that is not negative *)

Lemma Array_sort_values_defined comparefn (l : list jsval) :
  Forall (λ v, v ≠ VUndef) l → Array_sort_values comparefn l = Array_sort comparefn l.
Proof.
  intros Hl. unfold Array_sort_values.
  assert (List.filter (λ v, negb (is_undef v)) l = l) as ->.
  { induction Hl as [|v l Hv _ IH]; simpl; [done|]. rewrite IH. by destruct v. }
  assert (List.filter is_undef l = []) as ->; [|by rewrite app_nil_r].
  induction Hl as [|v l Hv _ IH]; simpl; [done|]. by destruct v.
Qed.

Lemma StronglySorted_lookup_lt {A} (R : relation A) l i j a b :
  StronglySorted R l → i < j → l !! i = Some a → l !! j = Some b → R a b.
Proof.
  intros Hl. revert i j. induction Hl as [|x l _ IH Hx]; intros i j Hij Hi Hj.
  { done. }
  destruct j as [|j]; [lia|]. simpl in Hj. destruct i as [|i]; simpl in Hi.
  - simplify_eq. rewrite Forall_forall in Hx. apply Hx.
    by eapply list_elem_of_lookup_2.
  - apply (IH i j); [lia|done..].
Qed.

Lemma sort_values_StronglySorted (vs : list jsval) :
  Forall (λ v, ToNumber v ≠ NaN) vs →
  StronglySorted (λ a b, num_lt (ToNumber b) (ToNumber a) = false)
    (Array_sort js_sub vs).
Proof.
  intros Hvs. unfold Array_sort.
  apply (Sorted_StronglySorted_on _ (λ v, ToNumber v ≠ NaN)).
  - intros x y z _ Hy _. by apply num_le_trans.
  - by rewrite sort_by_perm.
  - eapply Sorted_mono; [|apply sort_by_Sorted].
    + intros a b. unfold before, js_sub. by rewrite num_positive_sub.
    + intros a b. unfold js_sub. rewrite !num_positive_sub. apply num_lt_asym.
Qed.

Lemma Qc_lower_bound (a c : Qc) : (0 ≤ c)%Qc → ¬ (a < a + - c)%Qc.
Proof.
  intros Hc. apply Qcle_not_lt.
  rewrite <-(Qcplus_0_r a) at 2. apply Qcplus_le_mono_l.
  by apply (Qcopp_le_compat 0 c).
Qed.

Lemma Qc_upper_bound (a b c : Qc) : (a ≤ b)%Qc → (0 ≤ c)%Qc → ¬ (b + c < a)%Qc.
Proof.
  intros Hab Hc. apply Qcle_not_lt. trans b; [done|].
  rewrite <-(Qcplus_0_r b) at 1. by apply Qcplus_le_mono_l.
Qed.

(** One column: the record that holds the first quartile is kept. *)
Lemma removeOutliers_feature_keeps (q : Qc) (D : dataset) f :
  D ≠ [] → finite_column D f → (0 ≤ q)%Qc →
  removeOutliers_feature (Fin q) D f ≠ [].
Proof.
  intros Hne Hfin Hq. rewrite removeOutliers_feature_filter.
  set (vs := map (λ d, get d f) D).
  assert (Forall finite_number vs) as Hvs.
  { subst vs. apply (Forall_fmap (λ d, get d f)). exact Hfin. }
  assert (Forall (λ v, v ≠ VUndef) vs) as Hdef.
  { eapply Forall_impl; [exact Hvs|]. by intros v [x ->]. }
  assert (Forall (λ v, ToNumber v ≠ NaN) vs) as Hnum.
  { eapply Forall_impl; [exact Hvs|]. by intros v [x ->]. }
  set (sorted := Array_sort js_sub vs).
  assert (sorted ≡ₚ vs) as Hperm by apply sort_by_perm.
  assert (length sorted = length D) as Hlen.
  { rewrite Hperm. subst vs. apply length_map. }
  assert (0 < length D) as Hpos by (destruct D; [done|simpl; lia]).
  pose proof (sort_values_StronglySorted vs Hnum) as Hsorted. fold sorted in Hsorted.
  destruct (lookup_lt_is_Some_2 sorted (length sorted / 4)) as [v1 H1].
  { rewrite Hlen. apply Nat.Div0.div_lt_upper_bound. lia. }
  destruct (lookup_lt_is_Some_2 sorted (length sorted * 3 / 4)) as [v3 H3].
  { rewrite Hlen. apply Nat.Div0.div_lt_upper_bound. lia. }
  assert (v1 ∈ vs) as Hv1 by (rewrite <-Hperm; by eapply list_elem_of_lookup_2).
  assert (v3 ∈ vs) as Hv3 by (rewrite <-Hperm; by eapply list_elem_of_lookup_2).
  rewrite Forall_forall in Hvs.
  destruct (Hvs v1 Hv1) as [a ->]. destruct (Hvs v3 Hv3) as [b ->].
  assert (a ≤ b)%Qc as Hab.
  { destruct (decide (length sorted / 4 = length sorted * 3 / 4)) as [Heq|Hneq].
    - rewrite Heq in H1. by simplify_eq.
    - assert (length sorted / 4 < length sorted * 3 / 4) as Hlt.
      { assert (length sorted / 4 ≤ length sorted * 3 / 4)
          by (apply Nat.Div0.div_le_mono; lia). lia. }
      pose proof (StronglySorted_lookup_lt _ _ _ _ _ _ Hsorted Hlt H1 H3) as Hle.
      simpl in Hle. apply bool_decide_eq_false in Hle. by apply Qcnot_lt_le. }
  apply (list_elem_of_fmap (λ d, get d f)) in Hv1 as (d0 & Hd0 & Hin).
  assert (outlier_bounds (Fin q) D f
          = (Fin (a + - (q * (b + - a)))%Qc, VNum (Fin (b + q * (b + - a))%Qc)))
    as Hbounds.
  { unfold outlier_bounds. fold vs. rewrite (Array_sort_values_defined _ _ Hdef).
    fold sorted. by rewrite H1, H3. }
  rewrite Hbounds.
  assert (0 ≤ q * (b + - a))%Qc as Hc.
  { apply Qcmult_nonneg_nonneg; [done|]. by apply Qcle_minus_iff in Hab. }
  assert (d0 ∈ List.filter (λ d, negb (is_outlier
            (Fin (a + - (q * (b + - a)))%Qc, VNum (Fin (b + q * (b + - a))%Qc)) f d)) D)
    as Hkept.
  { apply list_elem_of_In, filter_In. split; [by apply list_elem_of_In|].
    unfold is_outlier. simpl. rewrite <-Hd0. unfold js_lt, js_gt. simpl.
    rewrite !bool_decide_eq_false_2; [done| |].
    - by apply Qc_upper_bound.
    - by apply Qc_lower_bound. }
  intros Hnil. rewrite Hnil in Hkept. by apply elem_of_nil in Hkept.
Qed.

Lemma finite_column_sublist (D D' : dataset) f :
  D' `sublist_of` D → finite_column D f → finite_column D' f.
Proof.
  unfold finite_column. rewrite !Forall_forall. intros Hsub HD d Hd.
  apply HD. by eapply elem_of_sublist.
Qed.

Lemma finite_column_clone (D : dataset) f :
  finite_column D f → finite_column (JSON_clone D) f.
Proof.
  unfold finite_column, JSON_clone. intros HD. apply Forall_fmap.
  eapply Forall_impl; [exact HD|]. simpl. intros d [x Hx].
  exists x. rewrite get_JSON_record_finite; [done|]. by exists x.
Qed.

(** X10. With a threshold that is not negative, outlier removal over
    columns of finite numbers never empties a dataset that has records:
    in each column the record at the first quartile lies within the
    bounds. *)
Theorem removeOutliers_nonempty (data : dataset) (N : list string) (q : Qc) :
  data ≠ [] → (∀ f, f ∈ N → finite_column data f) → (0 ≤ q)%Qc →
  removeOutliers data N (Fin q) ≠ [].
Proof.
  intros Hne Hfin Hq. unfold removeOutliers.
  assert (JSON_clone data ≠ []) as Hne' by (by destruct data).
  assert (∀ f, f ∈ N → finite_column (JSON_clone data) f) as Hfin'
    by (intros f Hf; by apply finite_column_clone, Hfin).
  revert Hne' Hfin'. generalize (JSON_clone data). clear Hne Hfin.
  induction N as [|f N IH]; intros D HD Hfin; simpl; [done|].
  apply IH.
  - apply removeOutliers_feature_keeps; [done| |done]. apply Hfin. left.
  - intros g Hg.
    apply (finite_column_sublist D); [|apply Hfin; by right].
    rewrite removeOutliers_feature_filter. apply List_filter_sublist.
Qed.

Lemma removeOutliers_nonempty_witness :
  removeOutliers outlier_example ["v"] threshold_default ≠ [].
Proof.
  apply (removeOutliers_nonempty outlier_example ["v"] (Q2Qc (3 # 2))).
  - done.
  - intros f ->%list_elem_of_singleton. unfold finite_column, outlier_example.
    repeat (apply Forall_cons; split; [by eexists|]). constructor.
  - by apply (bool_decide_unpack _).
Defined.

(** ** [applyNormalization]: what it leaves alone, missing values, a second run *)

Lemma normalize_feature_touched (D : dataset) f :
  Forall2 (touched [f]) D (normalize_feature D f).
Proof.
  unfold normalize_feature. destruct (negb _).
  - apply Forall2_fmap_r, Forall_Forall2_diag, Forall_true. intros d g.
    unfold set. destruct (decide (f = g)) as [->|Hne].
    + right. split; [left|]. eexists. apply lookup_insert_eq.
    + left. by apply lookup_insert_ne.
  - apply Forall_Forall2_diag, Forall_true. intros d g. by left.
Qed.

Lemma touched_trans N1 N2 d d' d'' :
  touched N1 d d' → touched N2 d' d'' → touched (N1 ++ N2) d d''.
Proof.
  intros H1 H2 g. destruct (H2 g) as [Heq|[Hg Hn]].
  - rewrite Heq. destruct (H1 g) as [?|[Hg Hn]]; [by left|].
    right. split; [|done]. apply elem_of_app. by left.
  - right. split; [|done]. apply elem_of_app. by right.
Qed.

Lemma normalize_all_touched (N : list string) (D : dataset) :
  Forall2 (touched N) D (foldl normalize_feature D N).
Proof.
  revert D. induction N as [|f N IH]; intros D; simpl.
  - apply Forall_Forall2_diag, Forall_true. intros d g. by left.
  - eapply Forall2_trans;
      [|apply (normalize_feature_touched D f)|apply IH].
    intros d d' d''. apply (touched_trans [f] N).
Qed.

Lemma applyNormalization_touched (data : dataset) (N : list string) :
  Forall2 (λ d d', touched N (JSON_record d) d') data (applyNormalization data N).
Proof.
  unfold applyNormalization.
  pose proof (normalize_all_touched N (JSON_clone data)) as H.
  exact (proj1 (Forall2_fmap_l JSON_record (touched N) data _) H).
Qed.

(** X11. Normalization returns one record per input record, and in each
    of them every field outside the columns [N] is what the JSON copy
    of the input record holds (absent when it is absent there); a column
    of [N] holds that too, or a number. *)
Theorem applyNormalization_frame (data : dataset) (N : list string) :
  length (applyNormalization data N) = length data
  ∧ ∀ i d, data !! i = Some d →
      ∃ d', applyNormalization data N !! i = Some d'
        ∧ (∀ g, g ∉ N → d' !! g = JSON_record d !! g)
        ∧ (∀ g, g ∈ N → d' !! g = JSON_record d !! g ∨ typeof (get d' g) = "number").
Proof.
  pose proof (applyNormalization_touched data N) as H.
  split; [symmetry; apply (Forall2_length _ _ _ H)|].
  intros i d Hi. destruct (Forall2_lookup_l _ _ _ _ _ H Hi) as (d' & Hd' & Ht).
  exists d'. split; [done|]. split.
  - intros g Hg. by destruct (Ht g) as [?|[? _]].
  - intros g _. destruct (Ht g) as [?|[_ [n Hn]]]; [by left|right].
    unfold get. by rewrite Hn.
Qed.

(** *** A value that is not a number *)

Lemma foldl_min_NaN (l : list num) : foldl num_min2 NaN l = NaN.
Proof. by induction l. Qed.

Lemma min_list_NaN_from (a : num) (l : list num) :
  NaN ∈ l → foldl num_min2 a l = NaN.
Proof.
  revert a. induction l as [|b l IH]; intros a Hin; [by apply elem_of_nil in Hin|].
  simpl. apply elem_of_cons in Hin as [<-|Hin]; [|by apply IH].
  assert (num_min2 a NaN = NaN) as -> by (by destruct a). apply foldl_min_NaN.
Qed.

Lemma Math_min_NaN (values : list jsval) v :
  v ∈ values → ToNumber v = NaN → Math_min values = NaN.
Proof.
  intros Hv Hn. unfold Math_min, min_list. apply min_list_NaN_from.
  rewrite <-Hn. by apply (list_elem_of_fmap_2 ToNumber).
Qed.

Lemma normalize_feature_NaN (D : dataset) f d :
  d ∈ D → ToNumber (get d f) = NaN →
  Forall (λ d', get d' f = VNum NaN) (normalize_feature D f).
Proof.
  intros Hd Hn. unfold normalize_feature.
  rewrite (Math_min_NaN (map (λ d, get d f) D) (get d f));
    [|by apply (list_elem_of_fmap_2 (λ d, get d f))|done].
  simpl. apply Forall_fmap, Forall_true. intros d'. simpl.
  rewrite get_set, bool_decide_eq_true_2 by done.
  unfold js_sub. simpl. by destruct (ToNumber (get d' f)).
Qed.

Lemma normalize_feature_other (D : dataset) f g (P : jsval → Prop) :
  g ≠ f →
  (Forall (λ d, P (get d f)) D → Forall (λ d, P (get d f)) (normalize_feature D g))
  ∧ (Exists (λ d, P (get d f)) D → Exists (λ d, P (get d f)) (normalize_feature D g)).
Proof.
  intros Hne. pose proof (normalize_feature_spec D g) as H. split.
  - rewrite !Forall_forall. intros HD d' Hd'.
    apply list_elem_of_lookup in Hd' as [i Hi].
    destruct (Forall2_lookup_r _ _ _ _ _ H Hi) as (d & Hd & _ & Hg).
    rewrite Hg by done. apply HD. by eapply list_elem_of_lookup_2.
  - rewrite !Exists_exists. intros (d & Hd & HP).
    apply list_elem_of_lookup in Hd as [i Hi].
    destruct (Forall2_lookup_l _ _ _ _ _ H Hi) as (d' & Hd' & _ & Hg).
    exists d'. split; [by eapply list_elem_of_lookup_2|]. by rewrite Hg.
Qed.

Lemma normalize_keeps_NaN (N : list string) (D : dataset) f :
  Forall (λ d, get d f = VNum NaN) D →
  Forall (λ d, get d f = VNum NaN) (foldl normalize_feature D N).
Proof.
  revert D. induction N as [|g N IH]; intros D HD; [done|]. simpl. apply IH.
  destruct (decide (g = f)) as [->|Hne].
  - destruct D as [|d D]; [by unfold normalize_feature; destruct (negb _)|].
    apply (normalize_feature_NaN _ f d); [left|].
    apply Forall_cons in HD as [-> _]. done.
  - by apply (normalize_feature_other D f g (λ v, v = VNum NaN)).
Qed.

Lemma normalize_all_NaN (N : list string) (D : dataset) f :
  f ∈ N → Exists (λ d, ToNumber (get d f) = NaN) D →
  Forall (λ d, get d f = VNum NaN) (foldl normalize_feature D N).
Proof.
  revert D. induction N as [|g N IH]; intros D Hf HD;
    [by apply elem_of_nil in Hf|].
  simpl. destruct (decide (g = f)) as [->|Hne].
  - apply normalize_keeps_NaN. apply Exists_exists in HD as (d & Hd & Hn).
    by apply (normalize_feature_NaN D f d).
  - apply IH.
    + apply elem_of_cons in Hf as [->|Hf]; done.
    + by apply (normalize_feature_other D f g (λ v, ToNumber v = NaN)).
Qed.

(** X12. When the JSON copy of one record holds, in a column of [N], a
    value that does not convert to a number (the field is absent, or a
    text that is no number), normalization leaves NaN in that column of
    every record. *)
Theorem applyNormalization_not_a_number (data : dataset) (N : list string) f d :
  f ∈ N → d ∈ data → ToNumber (get (JSON_record d) f) = NaN →
  Forall (λ d', get d' f = VNum NaN) (applyNormalization data N).
Proof.
  intros Hf Hd Hn. unfold applyNormalization. apply normalize_all_NaN; [done|].
  apply Exists_exists. exists (JSON_record d). split; [|done].
  unfold JSON_clone. by apply (list_elem_of_fmap_2 JSON_record).
Qed.

Lemma applyNormalization_not_a_number_witness :
  Forall (λ d', get d' "y" = VNum NaN)
    (applyNormalization
       [obj [("x", int 1); ("y", int 10)]; obj [("x", int 3)];
        obj [("x", int 2); ("y", int 8)]] ["x"; "y"]).
Proof.
  apply (applyNormalization_not_a_number _ ["x"; "y"] "y" (obj [("x", int 3)])).
  - right. left.
  - right. left.
  - reflexivity.
Defined.

(** *** A second run *)






(** ** [updateChart], [_Barchart] and [_Table] *)

Lemma sortData_Permutation (data : dataset) (key order : string) :
  sortData data key order ≡ₚ data.
Proof. unfold sortData. destruct (_ || _); [done|apply sort_by_perm]. Qed.

Lemma aggregateData_length (data : dataset) (gF nF method : string) :
  length (aggregateData data gF nF method) ≤ length data.
Proof.
  rewrite <-(length_fmap group), aggregateData_keys, length_fmap.
  apply aggregate_groups_length.
Qed.

Lemma removeOutliers_sublist (data : dataset) (N : list string) t :
  removeOutliers data N t `sublist_of` JSON_clone data.
Proof. apply removeOutliers_fold_sublist. Qed.

Lemma applyNormalization_length (data : dataset) (N : list string) :
  length (applyNormalization data N) = length data.
Proof.
  symmetry. apply (Forall2_length _ _ _ (applyNormalization_touched data N)).
Qed.

Lemma JSON_clone_length (data : dataset) : length (JSON_clone data) = length data.
Proof. apply length_map. Qed.

Lemma applyFiltering_nil (D : dataset) : applyFiltering D [] = D.
Proof. by apply List_filter_true. Qed.

(** With normalization off, what [prepared] returns. *)
Lemma prepared_plain (currentData : dataset) (filters : list Filter)
    (numericFeatures : list string) (c : updateChart.controls) :
  updateChart.normalize c = false →
  updateChart.prepared currentData filters numericFeatures c
  = if updateChart.removeOutliersChecked c
    then removeOutliers (applyFiltering (JSON_clone currentData) filters)
           numericFeatures (updateChart.threshold c)
    else applyFiltering (JSON_clone currentData) filters.
Proof.
  intros Hn. unfold updateChart.prepared. rewrite Hn.
  assert ((if bool_decide (0 < length filters)
           then applyFiltering (JSON_clone currentData) filters
           else JSON_clone currentData)
          = applyFiltering (JSON_clone currentData) filters) as ->; [|done].
  case_bool_decide as Hlen; [done|].
  destruct filters; [by rewrite applyFiltering_nil|simpl in Hlen; lia].
Qed.

Lemma prepared_length (currentData : dataset) (filters : list Filter)
    (numericFeatures : list string) (c : updateChart.controls) :
  length (updateChart.prepared currentData filters numericFeatures c)
  ≤ length currentData.
Proof.
  unfold updateChart.prepared.
  set (d1 := if bool_decide (0 < length filters)
             then applyFiltering (JSON_clone currentData) filters
             else JSON_clone currentData).
  assert (length d1 ≤ length currentData) as H1.
  { subst d1. rewrite <-(JSON_clone_length currentData).
    case_bool_decide; [|done]. apply sublist_length, List_filter_sublist. }
  set (d2 := if updateChart.removeOutliersChecked c
             then removeOutliers d1 numericFeatures (updateChart.threshold c)
             else d1).
  assert (length d2 ≤ length d1) as H2.
  { subst d2. destruct (updateChart.removeOutliersChecked c); [|done].
    rewrite <-(JSON_clone_length d1). apply sublist_length, removeOutliers_sublist. }
  destruct (updateChart.normalize c); [rewrite applyNormalization_length|]; lia.
Qed.

(** X14. No stage of [updateChart] adds a row: whatever the controls,
    the dataset handed to a chart, and the one handed to the table, have
    at most as many records as the current data. *)
Theorem updateChart_rows (currentData : dataset) (filters : list Filter)
    (numericFeatures : list string) (c : updateChart.controls) :
  length (updateChart.datasetToUse currentData filters numericFeatures c)
  ≤ length currentData
  ∧ length (updateChart.tableData currentData filters numericFeatures c)
    = length (updateChart.datasetToUse currentData filters numericFeatures c).
Proof.
  split.
  - unfold updateChart.datasetToUse. cbv zeta.
    pose proof (prepared_length currentData filters numericFeatures c) as Hp.
    destruct (updateChart.aggregates c); [|done].
    rewrite length_map. etrans; [apply aggregateData_length|done].
  - unfold updateChart.tableData. cbv zeta.
    destruct (_ && _); [|done]. by rewrite sortData_Permutation.
Qed.

Lemma tableData_records (currentData : dataset) (filters : list Filter)
    (numericFeatures : list string) (c : updateChart.controls) :
  updateChart.normalize c = false → updateChart.aggregates c = false →
  updateChart.datasetToUse currentData filters numericFeatures c
    `sublist_of` applyFiltering (JSON_clone currentData) filters
  ∧ updateChart.tableData currentData filters numericFeatures c
    ≡ₚ updateChart.datasetToUse currentData filters numericFeatures c.
Proof.
  intros Hn Ha. split.
  - unfold updateChart.datasetToUse. cbv zeta. rewrite Ha, prepared_plain by done.
    destruct (updateChart.removeOutliersChecked c); [|done].
    etrans; [apply removeOutliers_sublist|].
    rewrite (JSON_clone_fixed currentData); [done|apply List_filter_sublist].
  - unfold updateChart.tableData. cbv zeta.
    destruct (_ && _); [apply sortData_Permutation|done].
Qed.

(** X15. With normalization and aggregation off, the dataset handed to
    a chart is a subsequence of the filtered copy of the current data,
    and the whole of it when outlier removal is off too; the table gets
    the same records, possibly in another order, so every record shown
    is the copy of a record of the current data and passes every
    filter. *)
Theorem updateChart_plain (currentData : dataset) (filters : list Filter)
    (numericFeatures : list string) (c : updateChart.controls) :
  updateChart.normalize c = false → updateChart.aggregates c = false →
  updateChart.datasetToUse currentData filters numericFeatures c
    `sublist_of` applyFiltering (JSON_clone currentData) filters
  ∧ (updateChart.removeOutliersChecked c = false →
     updateChart.datasetToUse currentData filters numericFeatures c
     = applyFiltering (JSON_clone currentData) filters)
  ∧ updateChart.tableData currentData filters numericFeatures c
    ≡ₚ updateChart.datasetToUse currentData filters numericFeatures c
  ∧ Forall (λ d', (∃ d, d ∈ currentData ∧ d' = JSON_record d)
                  ∧ forallb (filter_holds d') filters = true)
      (updateChart.tableData currentData filters numericFeatures c).
Proof.
  intros Hn Ha.
  destruct (tableData_records currentData filters numericFeatures c Hn Ha)
    as [Hsub Hperm].
  split; [done|]. split; [|split; [done|]].
  - intros Ho. unfold updateChart.datasetToUse. cbv zeta.
    by rewrite Ha, prepared_plain, Ho by done.
  - apply Forall_forall. intros d' Hd'. rewrite Hperm in Hd'.
    apply (elem_of_sublist _ _ _ Hd') in Hsub.
    apply list_elem_of_In, filter_In in Hsub as [Hin Hall].
    split; [|done]. apply list_elem_of_In in Hin.
    apply list_elem_of_fmap in Hin as (d & -> & Hd). by exists d.
Qed.

Lemma updateChart_plain_witness :
  updateChart.datasetToUse xy_example filters_example ["x"; "y"] controls_example
    `sublist_of` applyFiltering (JSON_clone xy_example) filters_example
  ∧ (updateChart.removeOutliersChecked controls_example = false →
     updateChart.datasetToUse xy_example filters_example ["x"; "y"] controls_example
     = applyFiltering (JSON_clone xy_example) filters_example)
  ∧ updateChart.tableData xy_example filters_example ["x"; "y"] controls_example
    ≡ₚ updateChart.datasetToUse xy_example filters_example ["x"; "y"] controls_example
  ∧ Forall (λ d', (∃ d, d ∈ xy_example ∧ d' = JSON_record d)
                  ∧ forallb (filter_holds d') filters_example = true)
      (updateChart.tableData xy_example filters_example ["x"; "y"] controls_example).
Proof.
  apply (updateChart_plain xy_example filters_example ["x"; "y"] controls_example);
    reflexivity.
Defined.

(** X16. When the bar chart is drawn from aggregated data, its bars are
    the entries of [aggregateData] on the prepared dataset, in their
    order: a bar's index is the group and its value the aggregate, and
    no two bars share an index. When the two axes are the same column
    the second key of the renamed record overwrites the first, and the
    index is the aggregate as well. *)
Theorem Barchart_aggregated (currentData : dataset) (filters : list Filter)
    (numericFeatures : list string) (c : updateChart.controls) :
  updateChart.aggregates c = true →
  let xFeature := updateChart.xFeature c in
  let yFeature := updateChart.yFeature c in
  let entries :=
    aggregateData (updateChart.prepared currentData filters numericFeatures c)
      xFeature yFeature (updateChart.aggregationMethod c) in
  let bars :=
    Barchart.data_ (updateChart.datasetToUse currentData filters numericFeatures c)
      xFeature yFeature in
  bars = map (λ e, {| Barchart.index :=
                        if bool_decide (xFeature = yFeature) then VNum (value e)
                        else group e;
                      Barchart.value := VNum (value e) |}) entries
  ∧ (xFeature ≠ yFeature → NoDup (Barchart.index <$> bars)).
Proof.
  intros Ha xF yF entries bars.
  assert (bars = map (λ e, {| Barchart.index :=
                        if bool_decide (xF = yF) then VNum (value e) else group e;
                      Barchart.value := VNum (value e) |}) entries) as Hbars.
  { subst bars. unfold updateChart.datasetToUse. cbv zeta. rewrite Ha.
    fold xF yF entries. unfold Barchart.data_. rewrite map_map.
    apply map_ext. intros e. unfold updateChart.rename.
    rewrite !get_set. rewrite (bool_decide_eq_true_2 (yF = yF)) by done.
    f_equal. rewrite (bool_decide_ext (yF = xF) (xF = yF)) by done.
    case_bool_decide; [done|]. by rewrite bool_decide_eq_true_2. }
  split; [done|]. intros Hne. rewrite Hbars.
  change (map ?f ?l) with (f <$> l). rewrite <-list_fmap_compose.
  rewrite (list_fmap_ext _ group entries).
  - subst entries. rewrite aggregateData_keys.
    by destruct (aggregate_groups_inv
      (updateChart.prepared currentData filters numericFeatures c) xF yF).
  - intros i e _. simpl. by rewrite bool_decide_eq_false_2.
Qed.

Lemma Barchart_aggregated_witness :
  Barchart.data_ (updateChart.datasetToUse xy_example [] ["x"; "y"] barchart_example)
    "x" "y"
  = map (λ e, {| Barchart.index :=
                   if bool_decide ("x" = "y") then VNum (value e) else group e;
                 Barchart.value := VNum (value e) |})
      (aggregateData (updateChart.prepared xy_example [] ["x"; "y"] barchart_example)
         "x" "y" "sum")
  ∧ ("x" ≠ "y" →
     NoDup (Barchart.index <$>
       Barchart.data_
         (updateChart.datasetToUse xy_example [] ["x"; "y"] barchart_example)
         "x" "y")).
Proof.
  apply (Barchart_aggregated xy_example [] ["x"; "y"] barchart_example).
  reflexivity.
Defined.

(** *** The table *)

Lemma get_JSON_record (d : record) f :
  get (JSON_record d) f = default VUndef (JSON_value (get d f)).
Proof.
  unfold get, JSON_record. rewrite lookup_omap. by destruct (d !! f).
Qed.

Lemma shown_JSON_record (d : record) f :
  nullish_or (get (JSON_record d) f) (VStr "N/A") = shown (get d f).
Proof.
  rewrite get_JSON_record. destruct (get d f) as [| |b|n|s]; try done.
  by destruct n.
Qed.

(** X17. With normalization and aggregation off, the table has the
    features as headers and one row per record handed to it, each row
    with one cell per feature; every row shows a record of the current
    data: a field that is absent, null, NaN or infinite there is shown
    as the text N/A, any other field as its value. *)
Theorem Table_shows (currentData : dataset) (filters : list Filter)
    (numericFeatures features : list string) (c : updateChart.controls) :
  updateChart.normalize c = false → updateChart.aggregates c = false →
  let data := updateChart.tableData currentData filters numericFeatures c in
  Table.headers features = features
  ∧ length (Table.values data features) = length data
  ∧ Forall (λ row, length row = length features
                   ∧ ∃ d, d ∈ currentData
                          ∧ row = map (λ feature, shown (get d feature)) features)
      (Table.values data features).
Proof.
  intros Hn Ha data.
  destruct (tableData_records currentData filters numericFeatures c Hn Ha)
    as [Hsub Hperm]. fold data in Hperm.
  split; [apply map_id|]. split; [apply length_map|].
  unfold Table.values. apply (Forall_fmap _ _ data), Forall_forall.
  intros d' Hd'. simpl. split; [apply length_map|].
  rewrite Hperm in Hd'. apply (elem_of_sublist _ _ _ Hd') in Hsub.
  apply list_elem_of_In, filter_In in Hsub as [Hin _].
  apply list_elem_of_In, list_elem_of_fmap in Hin as (d & -> & Hd).
  exists d. split; [done|]. apply map_ext. intros f. apply shown_JSON_record.
Qed.

Lemma Table_shows_witness :
  Table.headers ["x"; "y"; "z"] = ["x"; "y"; "z"]
  ∧ length (Table.values
      (updateChart.tableData xy_example filters_example ["x"; "y"] controls_example)
      ["x"; "y"; "z"])
    = length
        (updateChart.tableData xy_example filters_example ["x"; "y"] controls_example)
  ∧ Forall (λ row, length row = length ["x"; "y"; "z"]
                   ∧ ∃ d, d ∈ xy_example
                          ∧ row = map (λ feature, shown (get d feature))
                                    ["x"; "y"; "z"])
      (Table.values
        (updateChart.tableData xy_example filters_example ["x"; "y"] controls_example)
        ["x"; "y"; "z"]).
Proof.
  apply (Table_shows xy_example filters_example ["x"; "y"] ["x"; "y"; "z"]
           controls_example); reflexivity.
Defined.

(** ** The filters of [createMultiFilterUI] *)








(** ** [buildHeatmapData]: a label that is NaN *)

Lemma strict_eq_NaN_l v : strict_eq (VNum NaN) v = false.
Proof. by destruct v. Qed.

Lemma strict_eq_NaN_r v : strict_eq v (VNum NaN) = false.
Proof. destruct v as [| |?|n|?]; try done. by destruct n. Qed.

(** X20. NaN becomes a label like any other value, but [indexOf] never
    finds it: the records whose row or column value is NaN are added to
    no cell, and every cell of a row or a column labelled NaN is zero. *)
Theorem buildHeatmapData_NaN_label (data : dataset) (rF cF vF : string) :
  let h := buildHeatmapData data rF cF vF in
  (∀ d, d ∈ data → get d rF = VNum NaN → VNum NaN ∈ rowLabels h)
  ∧ (∀ d, d ∈ data → get d cF = VNum NaN → VNum NaN ∈ colLabels h)
  ∧ (∀ i j rl cl, rowLabels h !! i = Some rl → colLabels h !! j = Some cl →
       rl = VNum NaN ∨ cl = VNum NaN →
       cell (values h) i j = Some (VNum (num_of_Z 0)))
  ∧ (∀ d matrix, get d rF = VNum NaN ∨ get d cF = VNum NaN →
       heatmap_step rF cF vF (rowLabels h) (colLabels h) matrix d = matrix).
Proof.
  intros h.
  pose proof (heatmap_labels data rF) as Hrows.
  pose proof (heatmap_labels data cF) as Hcols.
  split; [|split; [|split]].
  - intros d Hd Hn. apply Hrows. eauto.
  - intros d Hd Hn. apply Hcols. eauto.
  - intros i j rl cl Hi Hj HNaN. subst h. simpl in *.
    rewrite (heatmap_cell data rF cF vF _ _ i j rl cl)
      by (done || apply Hrows || apply Hcols).
    unfold cell. rewrite lookup_replicate_2 by (by eapply lookup_lt_Some).
    simpl. rewrite lookup_replicate_2 by (by eapply lookup_lt_Some).
    simpl. f_equal. apply (cell_sum_no_match data rF cF vF rl cl).
    intros d _ [H1 H2].
    destruct HNaN as [-> | ->]; by rewrite strict_eq_NaN_l in *.
  - intros d matrix HNaN. unfold heatmap_step.
    assert (∀ labels, indexOf labels (VNum NaN) = None) as Hidx.
    { intros labels. destruct (indexOf labels (VNum NaN)) as [i|] eqn:Hi; [|done].
      apply indexOf_Some in Hi as (l & _ & Heq). by rewrite strict_eq_NaN_r in Heq. }
    destruct HNaN as [-> | ->]; rewrite Hidx; [done|].
    by destruct (indexOf _ _).
Qed.
